(** * The batched work-flow engine of qshell (package [flow])

    A shallow embedding of [Info.Check], [Flow.Check] and [Flow.Start].
    The collaborators of the engine (work provider, worker provider,
    overseer, skipper, redo, limiter, listener) are Go interfaces whose
    implementations live outside the package; they are fields of [Flow]
    here as they are in the source, each one a Rocq function.

    [Flow.Start] runs one producer goroutine and [WorkerCount] consumer
    goroutines around a buffered channel.  The embedding is an executable
    small-step machine: a [State], one [step] per goroutine action, and a
    [run] over a schedule (a list of actions chosen by the Go scheduler and
    by the environment).

    Granularity.  One iteration of the producer loop up to its channel
    send, the channel send itself, and one iteration of a consumer loop are
    one step each.  A producer iteration reads the shared overseer once; a
    consumer iteration reads the interrupt flag once, at its top.  The
    events of two consumers are therefore never interleaved inside an
    iteration, as they can be in the program when [WorkerCount] is above 1:
    what is stated over runs below is either about the producer, the
    channel and the WaitGroup, or does not depend on the order in which the
    consumers' events fall; what is stated about one iteration is stated
    about [consume] itself.

    Collaborators.  A collaborator's answer depends on its arguments only,
    except for the overseer, whose lookups see the records stored so far.
    Calls on collaborators are recorded as events and taken to return.  The
    permits of the limiter are not modelled, so [Acquire], which may block
    in the program, does not block here: nothing about termination is
    stated for a flow with a limiter.

    Blocking.  A goroutine that cannot move (a send on a full channel, a
    receive on an empty open channel, [wait.Wait()] with a positive
    counter) has no step: [step] is [None]. *)

From stdpp Require Import prelude strings.

Local Open Scope Z_scope.

(** ** Package [data]: structured errors *)

Record CodeError := { Code : Z; Desc : string }.

Definition NewError (code : Z) (desc : string) : CodeError :=
  {| Code := code; Desc := desc |}.

(** Modelled from the spec: the constants [data.ErrorCodeParamMissing] and
    [data.ErrorCodeAlreadyDone] are declared in package [data], which is not
    part of the sources at hand.  The engine only compares against the first
    and assigns the second; no proof below depends on the numbers chosen. *)
Definition ErrorCodeParamMissing : Z := -10003.
Definition ErrorCodeAlreadyDone : Z := -10002.

(** Modelled from the spec: the method [CodeError.Error] is declared in
    package [data], outside the sources at hand.  The spec renders the call
    [workRecord.Err.Error()] as [prior.Err.Desc], so the method is taken to
    read the receiver's [Desc].  The spec also has works recorded as
    successes, whose [Err] is nil, skipped with [ErrorCodeAlreadyDone], so
    the call returns on a nil receiver; there is no [Desc] to read then and
    the description is empty. *)
Definition CodeError_Error (e : option CodeError) : string :=
  from_option Desc EmptyString e.

(** Modelled from the spec: [alert.CannotEmptyError] is declared in package
    [alert], outside the sources at hand; the command tests expect messages
    of the form "<word> can't empty".  Only the fact that the result is
    non-nil matters to [Flow.Check]. *)
Definition CannotEmptyError (word : string) : CodeError :=
  NewError 0 (word +:+ " can't empty").

(** ** Work items, results and records *)

(** The domain payload behind the [Work] interface is opaque to the engine. *)
Definition Work := string.

(** [*WorkInfo]: a nil pointer is [None] wherever the source passes one. *)
Record WorkInfo := { Data : string; Work_ : option Work }.

(** The [Result] interface: an opaque value with its [IsValid()] answer. *)
Record Result := { Value : string; IsValid : bool }.

Record WorkRecord := {
  rWorkInfo : option WorkInfo;
  rResult : option Result;
  rErr : option CodeError
}.

(** ** Collaborator interfaces *)

(** One answer of [WorkProvider.Provide()]: [(hasMore, workInfo, err)]. *)
Record Provided := {
  hasMore : bool;
  workInfo : option WorkInfo;
  err : option CodeError
}.

(** A [WorkProvider] is the script of the answers it gives, in order; once
    the script is used up the source is exhausted and, as the provider
    contract says, it answers [(false, nil, nil)]. *)
Definition WorkProviderT := list Provided.

Definition exhausted : Provided :=
  {| hasMore := false; workInfo := None; err := None |}.

Record Worker := {
  DoWork : list WorkInfo → list WorkRecord * option CodeError
}.

(** [WorkerProvider.Provide()] is called once by each consumer goroutine;
    the answer a consumer gets is indexed by the consumer. *)
Definition WorkerProviderT := nat → Worker + CodeError.

(** The overseer is shared by the producer (lookups) and the consumers
    ([WorkDone]).  Its state is the list of records it holds, the most
    recent first: those it starts with and those passed to [WorkDone]. *)
Record OverseerT := {
  Recorded : list WorkRecord;
  GetWorkRecordIfHasDone : list WorkRecord → WorkInfo → bool * option WorkRecord
}.

Record SkipperT := { ShouldSkip : WorkInfo → bool * option CodeError }.

Record RedoT := {
  ShouldRedo : WorkInfo → option WorkRecord → bool * option CodeError
}.

(** Of the limiter only [IsLimitError] gives the engine an answer it acts
    on.  [Acquire], [Release] and [AddLimitCount] are recorded as events;
    the count of permits behind them is not part of the model. *)
Record AutoLimit := { IsLimitError : Z → option CodeError → bool }.

(** The two optional lifecycle hooks are [None] when nil and otherwise give
    the error they return; [WillWork] is the listener method the producer
    calls. *)
Record EventListenerT := {
  FlowWillStartFunc : option (option CodeError);
  FlowWillEndFunc : option (option CodeError);
  WillWork : WorkInfo → bool * option CodeError
}.

(** ** [Info] and [Flow] *)

Record Info := {
  Force : bool;
  WorkerCount : Z;
  StopWhenWorkError : bool
}.

Record Flow := {
  fInfo : Info;
  WorkProvider : option WorkProviderT;
  WorkerProvider : option WorkerProviderT;
  DoWorkInfoListMaxCount : Z;
  Limit : option AutoLimit;
  EventListener : EventListenerT;
  Overseer : option OverseerT;
  Skipper : option SkipperT;
  Redo : option RedoT;
  workErrorHappened : bool
}.

(** [func (i *Info) Check() *data.CodeError]: the repaired receiver and the
    returned error. *)
Definition Info_Check (i : Info) : Info * option CodeError :=
  let i := if WorkerCount i <? 1
           then {| Force := Force i; WorkerCount := 1;
                   StopWhenWorkError := StopWhenWorkError i |}
           else i in
  (i, None).

Definition with_Info (f : Flow) (i : Info) : Flow :=
  {| fInfo := i; WorkProvider := WorkProvider f;
     WorkerProvider := WorkerProvider f;
     DoWorkInfoListMaxCount := DoWorkInfoListMaxCount f;
     Limit := Limit f; EventListener := EventListener f;
     Overseer := Overseer f; Skipper := Skipper f; Redo := Redo f;
     workErrorHappened := workErrorHappened f |}.

Definition with_DoWorkInfoListMaxCount (f : Flow) (n : Z) : Flow :=
  {| fInfo := fInfo f; WorkProvider := WorkProvider f;
     WorkerProvider := WorkerProvider f;
     DoWorkInfoListMaxCount := n;
     Limit := Limit f; EventListener := EventListener f;
     Overseer := Overseer f; Skipper := Skipper f; Redo := Redo f;
     workErrorHappened := workErrorHappened f |}.

(** [f.Info.Check()] as it acts on the flow that owns the [Info]. *)
Definition Flow_Info_Check (f : Flow) : Flow * option CodeError :=
  let '(i, e) := Info_Check (fInfo f) in (with_Info f i, e).

(** [func (f *Flow) Check() *data.CodeError]. *)
Definition Flow_Check (f : Flow) : Flow * option CodeError :=
  match Flow_Info_Check f with
  | (f, Some e) => (f, Some e)
  | (f, None) =>
    match WorkProvider f with
    | None => (f, Some (CannotEmptyError "WorkProvider"))
    | Some _ =>
      match WorkerProvider f with
      | None => (f, Some (CannotEmptyError "WorkerProvider"))
      | Some _ =>
        let f := if DoWorkInfoListMaxCount f <? 1
                 then with_DoWorkInfoListMaxCount f 1 else f in
        (f, None)
      end
    end
  end.

(** ** Observable effects

    Every call the engine makes on a collaborator, and every channel
    operation of the producer, is recorded in a trace, in program order
    within a goroutine. *)

Inductive Event :=
| CallFlowWillStart
| CallFlowWillEnd
| CallShouldSkip (w : WorkInfo)
| CallGetWorkRecordIfHasDone (w : WorkInfo)
| CallShouldRedo (w : WorkInfo) (prior : option WorkRecord)
| CallWillWork (w : WorkInfo)
| OnWorkSkip (w : option WorkInfo) (res : option Result) (cause : option CodeError)
| OnWorkFail (w : option WorkInfo) (e : CodeError)
| OnWorkSuccess (w : option WorkInfo) (res : option Result)
| CallWorkDone (r : WorkRecord)
| CallAcquire (n : Z)
| CallDoWork (batch : list WorkInfo)
| CallRelease (n : Z)
| CallAddLimitCount (delta : Z)
| CallSleep (d : Z)
| ChanSend (batch : list WorkInfo)
| ChanClose.

(** [time.Millisecond], in nanoseconds. *)
Definition Millisecond : Z := 1000000.

(** ** Admission: the producer's checks on one work item *)

(** How one pass through the checks ends: the item goes on to the next
    check ([Accept]), the loop [continue]s after a skip ([Reject]), or the
    goroutine dereferences a nil pointer ([Fault]). *)
Inductive Verdict := Accept | Reject | Fault.

Definition Stage := (list Event * Verdict)%type.

(** Sequencing of two checks: the second runs only if the first did not
    [continue] or fault. *)
Definition andThen (a b : Stage) : Stage :=
  match a with
  | (evs, Accept) => (evs ++ b.1, b.2)
  | _ => a
  end.

(** [if f.Skipper != nil { if skip, cause := f.Skipper.ShouldSkip(workInfo); skip ... } }] *)
Definition skipperStage (f : Flow) (w : WorkInfo) : Stage :=
  match Skipper f with
  | None => ([], Accept)
  | Some s =>
    match ShouldSkip s w with
    | (true, cause) =>
      ([CallShouldSkip w; OnWorkSkip (Some w) None cause], Reject)
    | (false, _) => ([CallShouldSkip w], Accept)
    end
  end.

(** [if f.Overseer != nil { if hasDone, workRecord := ...; hasDone { ... } }] *)
Definition overseerStage (f : Flow) (store : list WorkRecord) (w : WorkInfo)
  : Stage :=
  match Overseer f with
  | None => ([], Accept)
  | Some o =>
    match GetWorkRecordIfHasDone o store w with
    | (false, _) => ([CallGetWorkRecordIfHasDone w], Accept)
    | (true, workRecord) =>
      match Redo f with
      | None =>
        match workRecord with
        | None => ([CallGetWorkRecordIfHasDone w], Fault)
        | Some r =>
          ([CallGetWorkRecordIfHasDone w;
            OnWorkSkip (Some w) (rResult r)
                       (Some (NewError ErrorCodeAlreadyDone
                                       (CodeError_Error (rErr r))))],
           Reject)
        end
      | Some rd =>
        match ShouldRedo rd w workRecord with
        | (false, cause) =>
          let cause :=
            match cause with
            | None => NewError ErrorCodeAlreadyDone "already done"
            | Some c => c
            end in
          let cause := {| Code := ErrorCodeAlreadyDone; Desc := Desc cause |} in
          match workRecord with
          | None =>
            ([CallGetWorkRecordIfHasDone w; CallShouldRedo w workRecord], Fault)
          | Some r =>
            ([CallGetWorkRecordIfHasDone w; CallShouldRedo w workRecord;
              OnWorkSkip (Some w) (rResult r) (Some cause)], Reject)
          end
        | (true, _) =>
          ([CallGetWorkRecordIfHasDone w; CallShouldRedo w workRecord], Accept)
        end
      end
    end
  end.

(** [if shouldContinue, e := f.EventListener.WillWork(workInfo); !shouldContinue ...] *)
Definition listenerStage (f : Flow) (w : WorkInfo) : Stage :=
  match WillWork (EventListener f) w with
  | (false, e) => ([CallWillWork w; OnWorkSkip (Some w) None e], Reject)
  | (true, _) => ([CallWillWork w], Accept)
  end.

(** The three checks in the order of the loop body. *)
Definition admission (f : Flow) (store : list WorkRecord) (w : WorkInfo)
  : Stage :=
  andThen (skipperStage f w)
          (andThen (overseerStage f store w) (listenerStage f w)).

(** ** State shared between the goroutines *)

Record Shared := {
  store : list WorkRecord;   (* what the overseer holds *)
  failed : bool;             (* f.workErrorHappened *)
  trace : list Event
}.

Definition emit (evs : list Event) (sh : Shared) : Shared :=
  {| store := store sh; failed := failed sh; trace := trace sh ++ evs |}.

(** ** The consumer's handling of one batch *)

(** The closure [resultHandler]. *)
Definition resultHandler (f : Flow) (workRecord : WorkRecord) (sh : Shared)
  : Shared :=
  let sh :=
    match Overseer f with
    | Some _ =>
      let r := {| rWorkInfo := rWorkInfo workRecord;
                  rResult := rResult workRecord;
                  rErr := rErr workRecord |} in
      {| store := r :: store sh; failed := failed sh;
         trace := trace sh ++ [CallWorkDone r] |}
    | None => sh
    end in
  match rErr workRecord with
  | Some e =>
    {| store := store sh; failed := true;
       trace := trace sh ++ [OnWorkFail (rWorkInfo workRecord) e] |}
  | None => emit [OnWorkSuccess (rWorkInfo workRecord) (rResult workRecord)] sh
  end.

(** The closure [isHitLimit]. *)
Definition isHitLimit (f : Flow) (workRecord : WorkRecord) : bool :=
  match Limit f with
  | None => false
  | Some l => IsLimitError l 0 (rErr workRecord)
  end.

(** [(record.Result == nil || !record.Result.IsValid()) && record.Err == nil] *)
Definition lacksOutcome (record : WorkRecord) : bool :=
  match rResult record with
  | None => true
  | Some res => negb (IsValid res)
  end && match rErr record with None => true | Some _ => false end.

(** The assignment [record.Err = workErr] under that condition. *)
Definition fallback (workErr : option CodeError) (record : WorkRecord)
  : WorkRecord :=
  if lacksOutcome record
  then {| rWorkInfo := rWorkInfo record; rResult := rResult record;
          rErr := workErr |}
  else record.

(** [for _, record := range workRecordList { ... }], with the running
    [hitLimitCount]. *)
Fixpoint dispatch (f : Flow) (workErr : option CodeError)
    (workRecordList : list WorkRecord) (hitLimitCount : Z) (sh : Shared)
  : Z * Shared :=
  match workRecordList with
  | [] => (hitLimitCount, sh)
  | record :: rest =>
    let record := fallback workErr record in
    let sh := resultHandler f record sh in
    let hitLimitCount :=
      if isHitLimit f record then hitLimitCount + 1 else hitLimitCount in
    dispatch f workErr rest hitLimitCount sh
  end.

(** Why a consumer left its [for ... range workChan] loop. *)
Inductive ExitReason :=
| ChannelDrained    (* the channel was closed and empty *)
| Interrupted       (* workspace.IsCmdInterrupt() *)
| BatchFailed       (* no records and a batch error *)
| StoppedOnError.   (* workErrorHappened && StopWhenWorkError *)

(** [p != nil] for a pointer or interface value. *)
Definition notNil {A} (p : option A) : bool :=
  match p with Some _ => true | None => false end.

(** What follows [DoWork]'s return in the loop body. *)
Definition settle (f : Flow) (workList : list WorkInfo)
    (workRecordList : list WorkRecord) (workErr : option CodeError)
    (sh : Shared) : Shared * option ExitReason :=
  if (length workRecordList =? 0)%nat && notNil workErr
  then (sh, Some BatchFailed)
  else
    let '(hitLimitCount, sh) := dispatch f workErr workRecordList 0 sh in
    let sh :=
      match Limit f with
      | None => sh
      | Some _ =>
        let sh := emit [CallRelease (Z.of_nat (length workList))] sh in
        if 0 <? hitLimitCount
        then emit [CallAddLimitCount (-1 * hitLimitCount);
                   CallSleep (Millisecond * 1500)] sh
        else sh
      end in
    if failed sh && StopWhenWorkError (fInfo f)
    then (sh, Some StoppedOnError)
    else (sh, None).

(** One iteration of the consumer loop on a received batch; [Some why] is a
    [break]. *)
Definition consume (f : Flow) (worker : Worker) (IsCmdInterrupt : bool)
    (workList : list WorkInfo) (sh : Shared) : Shared * option ExitReason :=
  if IsCmdInterrupt then (sh, Some Interrupted)
  else
    let sh :=
      match Limit f with
      | None => sh
      | Some _ => emit [CallAcquire (Z.of_nat (length workList))] sh
      end in
    let sh := emit [CallDoWork workList] sh in
    let '(workRecordList, workErr) := DoWork worker workList in
    settle f workList workRecordList workErr sh.

(** ** The producer's handling of one answer of the provider *)

Inductive ProducerStatus :=
| Producing                                        (* at the top of the loop *)
| Sending (batch : list WorkInfo) (final : bool)   (* at [workChan <- workList] *)
| Finished                                         (* channel closed *)
| Panicked.

(** The end of the loop: flush and close. *)
Definition flush (workList : list WorkInfo)
  : list Event * list WorkInfo * ProducerStatus :=
  if (0 <? length workList)%nat
  then ([], workList, Sending workList true)
  else ([ChanClose], workList, Finished).

(** One iteration of the producer loop, up to the channel send. *)
Definition produce (f : Flow) (p : Provided) (workList : list WorkInfo)
    (store : list WorkRecord) : list Event * list WorkInfo * ProducerStatus :=
  match err p with
  | Some e =>
    if Code e =? ErrorCodeParamMissing
    then ([OnWorkSkip (workInfo p) None (Some e)], workList, Producing)
    else ([OnWorkFail (workInfo p) e], workList, Producing)
  | None =>
    match workInfo p ≫= (λ w, Work_ w ≫= λ _, Some w) with
    | None =>
      if negb (hasMore p) then flush workList else ([], workList, Producing)
    | Some w =>
      match admission f store w with
      | (evs, Reject) => (evs, workList, Producing)
      | (evs, Fault) => (evs, workList, Panicked)
      | (evs, Accept) =>
        let workList := workList ++ [w] in
        if DoWorkInfoListMaxCount f <=? Z.of_nat (length workList)
        then (evs, [], Sending workList false)
        else (evs, workList, Producing)
      end
    end
  end.

(** ** The machine behind [Flow.Start] *)

Inductive ConsumerStatus :=
| Spawned                     (* goroutine started, no worker yet *)
| Ranging (worker : Worker)   (* at [for workList := range workChan] *)
| Returned                    (* [return] on a worker construction error *)
| Exited (why : ExitReason).  (* left the loop and called [wait.Done()] *)

Inductive MainStatus := Waiting | Ended.

Record State := {
  provider : list Provided;         (* what the work provider has yet to answer *)
  workList : list WorkInfo;         (* the producer's buffer *)
  producer : ProducerStatus;
  workChan : list (list WorkInfo);  (* the channel's queue, oldest first *)
  consumers : list ConsumerStatus;
  wait : Z;                         (* the WaitGroup counter *)
  interrupt : bool;                 (* workspace.IsCmdInterrupt() *)
  main : MainStatus;                (* the goroutine that called Start *)
  shared : Shared
}.

(** What moves next: the producer, consumer [i], the caller of [Start] at
    [wait.Wait()], or the signal handler raising the interrupt flag. *)
Inductive Action :=
| Produce
| Consume (i : nat)
| Wait
| Interrupt.

(** [cap(workChan)]. *)
Definition capacity (f : Flow) : nat := Z.to_nat (WorkerCount (fInfo f)).

Definition stepProduce (f : Flow) (st : State) : option State :=
  match producer st with
  | Producing =>
    let '(p, rest) :=
      match provider st with
      | [] => (exhausted, [])
      | p :: rest => (p, rest)
      end in
    let '(evs, workList', status) :=
      produce f p (workList st) (store (shared st)) in
    Some {| provider := rest; workList := workList'; producer := status;
            workChan := workChan st; consumers := consumers st;
            wait := wait st; interrupt := interrupt st; main := main st;
            shared := emit evs (shared st) |}
  | Sending batch final =>
    if (length (workChan st) <? capacity f)%nat
    then Some {| provider := provider st; workList := workList st;
                 producer := if final then Finished else Producing;
                 workChan := workChan st ++ [batch];
                 consumers := consumers st;
                 wait := wait st; interrupt := interrupt st; main := main st;
                 shared := emit (ChanSend batch ::
                                 if final then [ChanClose] else [])
                                (shared st) |}
    else None
  | Finished | Panicked => None
  end.

Definition setConsumer (i : nat) (c : ConsumerStatus) (done : bool)
    (st : State) : State :=
  {| provider := provider st; workList := workList st;
     producer := producer st; workChan := workChan st;
     consumers := <[i := c]> (consumers st);
     wait := if done then wait st - 1 else wait st;
     interrupt := interrupt st; main := main st; shared := shared st |}.

Definition receive (batches : list (list WorkInfo)) (sh : Shared)
    (st : State) : State :=
  {| provider := provider st; workList := workList st;
     producer := producer st; workChan := batches;
     consumers := consumers st; wait := wait st;
     interrupt := interrupt st; main := main st; shared := sh |}.

(** A move of consumer [i]: the construction of its worker, or one whole
    iteration of its loop, from the receive to the test at the bottom. *)
Definition stepConsume (f : Flow) (i : nat) (st : State) : option State :=
  match consumers st !! i with
  | Some Spawned =>
    match WorkerProvider f with
    | None => None
    | Some provide =>
      match provide i with
      | inl worker => Some (setConsumer i (Ranging worker) false st)
      | inr _ => Some (setConsumer i Returned false st)
      end
    end
  | Some (Ranging worker) =>
    match workChan st with
    | batch :: rest =>
      let '(sh, brk) := consume f worker (interrupt st) batch (shared st) in
      match brk with
      | Some why => Some (setConsumer i (Exited why) true (receive rest sh st))
      | None => Some (receive rest sh st)
      end
    | [] =>
      match producer st with
      | Finished => Some (setConsumer i (Exited ChannelDrained) true st)
      | _ => None
      end
    end
  | _ => None
  end.

Definition stepWait (f : Flow) (st : State) : option State :=
  match main st with
  | Waiting =>
    if wait st =? 0
    then Some {| provider := provider st; workList := workList st;
                 producer := producer st; workChan := workChan st;
                 consumers := consumers st; wait := wait st;
                 interrupt := interrupt st; main := Ended;
                 shared := emit (if notNil (FlowWillEndFunc (EventListener f))
                                 then [CallFlowWillEnd] else [])
                                (shared st) |}
    else None
  | Ended => None
  end.

Definition stepInterrupt (st : State) : option State :=
  Some {| provider := provider st; workList := workList st;
          producer := producer st; workChan := workChan st;
          consumers := consumers st; wait := wait st;
          interrupt := true; main := main st; shared := shared st |}.

(** One action; [None] when the goroutine is blocked or gone.  A panic in
    the producer takes the whole process down. *)
Definition step (f : Flow) (a : Action) (st : State) : option State :=
  match producer st with
  | Panicked => None
  | _ =>
    match a with
    | Produce => stepProduce f st
    | Consume i => stepConsume f i st
    | Wait => stepWait f st
    | Interrupt => stepInterrupt st
    end
  end.

Fixpoint run (f : Flow) (schedule : list Action) (st : State) : option State :=
  match schedule with
  | [] => Some st
  | a :: schedule => step f a st ≫= run f schedule
  end.

(** The state in which the goroutines are launched. *)
Definition launch (f : Flow) : State :=
  {| provider := default [] (WorkProvider f);
     workList := [];
     producer := Producing;
     workChan := [];
     consumers := replicate (capacity f) Spawned;
     wait := WorkerCount (fInfo f);
     interrupt := false;
     main := Waiting;
     shared := {| store := from_option Recorded [] (Overseer f);
                  failed := workErrorHappened f;
                  trace := if notNil (FlowWillStartFunc (EventListener f))
                           then [CallFlowWillStart] else [] |} |}.

(** [func (f *Flow) Start()] up to the launch of the goroutines: either it
    returns at once, or the repaired flow runs from [launch]. *)
Inductive Started :=
| Aborted (evs : list Event)
| Launched (f : Flow) (st : State).

Definition Start (f : Flow) (UserCodeVerification : bool) : Started :=
  match Flow_Check f with
  | (_, Some _) => Aborted []
  | (f, None) =>
    if negb (Force (fInfo f)) && negb UserCodeVerification
    then Aborted []
    else
      match FlowWillStartFunc (EventListener f) with
      | Some (Some _) => Aborted [CallFlowWillStart]
      | _ => Launched f (launch f)
      end
  end.

(** [Flow.Start] reaches [st] under some schedule. *)
Definition Reaches (f : Flow) (verified : bool) (f' : Flow) (st : State)
  : Prop :=
  ∃ schedule, Start f verified = Launched f' (launch f')
              ∧ run f' schedule (launch f') = Some st.

(** ** Reading a trace *)

(** The collaborator a consultation event asks. *)
Inductive Asked := AskSkipper | AskOverseer | AskRedo | AskListener.

Definition consulted (e : Event) : option Asked :=
  match e with
  | CallShouldSkip _ => Some AskSkipper
  | CallGetWorkRecordIfHasDone _ => Some AskOverseer
  | CallShouldRedo _ _ => Some AskRedo
  | CallWillWork _ => Some AskListener
  | _ => None
  end.

Definition isSkip (e : Event) : bool :=
  match e with OnWorkSkip _ _ _ => true | _ => false end.

(** The work a terminal listener event is about, when the event is terminal
    and the work has a payload. *)
Definition subject (e : Event) : option WorkInfo :=
  match e with
  | OnWorkSkip w _ _ | OnWorkFail w _ | OnWorkSuccess w _ =>
    w ≫= (λ w, Work_ w ≫= λ _, Some w)
  | _ => None
  end.

Definition isLimiterCall (e : Event) : bool :=
  match e with
  | CallAcquire _ | CallRelease _ | CallAddLimitCount _ | CallSleep _ => true
  | _ => false
  end.

(** What [resultHandler] lets the outside see for one record. *)
Definition reported (f : Flow) (r : WorkRecord) : list Event :=
  (if notNil (Overseer f) then [CallWorkDone r] else [])
  ++ [match rErr r with
      | Some e => OnWorkFail (rWorkInfo r) e
      | None => OnWorkSuccess (rWorkInfo r) (rResult r)
      end].

(** The works with a payload that the provider hands out before the
    producer loop ends. *)
Fixpoint emitted (script : list Provided) : list WorkInfo :=
  match script with
  | [] => []
  | p :: rest =>
    match workInfo p ≫= (λ w, Work_ w ≫= λ _, Some w) with
    | Some w => w :: emitted rest
    | None =>
      if notNil (err p) || hasMore p then emitted rest else []
    end
  end.

(** ** Predicates on states and runs *)

(** Which goroutine an event comes from. *)
Definition fromProducer (e : Event) : bool :=
  match e with
  | CallShouldSkip _ | CallGetWorkRecordIfHasDone _ | CallShouldRedo _ _
  | CallWillWork _ | OnWorkSkip _ _ _ | OnWorkFail _ _
  | ChanSend _ | ChanClose => true
  | _ => false
  end.

Definition fromConsumer (e : Event) : bool :=
  match e with
  | CallAcquire _ | CallDoWork _ | CallWorkDone _ | OnWorkFail _ _
  | OnWorkSuccess _ _ | CallRelease _ | CallAddLimitCount _ | CallSleep _ =>
    true
  | _ => false
  end.

Definition sized (f : Flow) (batch : list WorkInfo) : Prop :=
  1 ≤ Z.of_nat (length batch) ≤ DoWorkInfoListMaxCount f.

(** What the producer maintains about batch sizes. *)
Record Batched (f : Flow) (st : State) : Prop := {
  buffer_below : Z.of_nat (length (workList st)) < DoWorkInfoListMaxCount f;
  sending_sized : ∀ b final, producer st = Sending b final → sized f b;
  queued_sized : ∀ b, b ∈ workChan st → sized f b;
  sent_sized : ∀ b, ChanSend b ∈ trace (shared st) → sized f b
}.

(** The provider's last answer: [(false, nil, nil)], or one with no payload. *)
Definition lastAnswer (p : Provided) : Prop :=
  err p = None ∧ workInfo p ≫= (λ w, Work_ w ≫= λ _, Some w) = None
  ∧ hasMore p = false.

Definition atEnd (st : State) : Prop :=
  provider st = [] ∨ ∃ p rest, provider st = p :: rest ∧ lastAnswer p.

(** A consumer that has not called [wait.Done()]. *)
Definition blocking (c : ConsumerStatus) : bool :=
  match c with Exited _ => false | _ => true end.

Record Counted (st : State) : Prop := {
  wait_counts :
    wait st = Z.of_nat (length (List.filter blocking (consumers st)))
}.

(** A consumer whose worker could not be built never gets past its
    [return]. *)
Definition neverDone (c : option ConsumerStatus) : Prop :=
  c = Some Spawned ∨ c = Some Returned.

Record Stuck (i : nat) (st : State) : Prop := {
  stuck_counted : Counted st;
  stuck_consumer : neverDone (consumers st !! i);
  stuck_main : main st = Waiting;
  stuck_silent : CallFlowWillEnd ∉ trace (shared st)
}.

(** A worker that keeps the contract of [DoWork]: no records together with
    a batch error, or one record per item of the batch, in the batch's
    order. *)
Definition honours (worker : Worker) : Prop :=
  ∀ batch,
    ((DoWork worker batch).1 = [] ∧ (DoWork worker batch).2 ≠ None)
    ∨ rWorkInfo <$> (DoWork worker batch).1 = Some <$> batch.

(** The works the producer still holds or has yet to pull. *)
Definition held (status : ProducerStatus) (workList : list WorkInfo)
    (script : list Provided) : list WorkInfo :=
  match status with
  | Producing => workList ++ emitted script
  | Sending batch false => batch ++ workList ++ emitted script
  | Sending batch true => batch
  | Finished | Panicked => []
  end.

(** The works that have not reached a terminal event yet. *)
Definition pending (st : State) : list WorkInfo :=
  held (producer st) (workList st) (provider st) ++ concat (workChan st).

(** The works that have. *)
Definition covered (st : State) : list WorkInfo :=
  omap subject (trace (shared st)).

(** Some goroutine left its loop before the channel was drained. *)
Definition early (st : State) : Prop :=
  producer st = Panicked
  ∨ ∃ i why, consumers st !! i = Some (Exited why) ∧ why ≠ ChannelDrained.

Record Covering (f : Flow) (script : list Provided) (st : State) : Prop := {
  crew : length (consumers st) = capacity f;
  workers_honour :
    ∀ i worker, consumers st !! i = Some (Ranging worker) → honours worker;
  drained :
    ∀ i, consumers st !! i = Some (Exited ChannelDrained) →
         producer st = Finished ∧ workChan st = [];
  accounted :
    early st
    ∨ (Forall (λ w, is_Some (Work_ w)) (pending st)
       ∧ covered st ++ pending st ≡ₚ emitted script)
}.

(** ** Sample collaborators and flows *)

Definition work (name : string) : WorkInfo :=
  {| Data := name; Work_ := Some name |}.

Definition offer (w : WorkInfo) : Provided :=
  {| hasMore := true; workInfo := Some w; err := None |}.

Definition okResult : Result := {| Value := "ok"; IsValid := true |}.

Definition succeeded (w : WorkInfo) : WorkRecord :=
  {| rWorkInfo := Some w; rResult := Some okResult; rErr := None |}.

Definition boom : CodeError := NewError 573 "limit exceeded".

(** A worker that succeeds on every item. *)
Definition diligent : Worker :=
  {| DoWork := λ batch, (succeeded <$> batch, None) |}.

(** A worker whose call fails as a whole: no records, a batch error. *)
Definition broken : Worker :=
  {| DoWork := λ _, ([], Some boom) |}.

(** A worker whose every item fails with its own error. *)
Definition throttled : Worker :=
  {| DoWork := λ batch,
       ((λ w, {| rWorkInfo := Some w; rResult := None; rErr := Some boom |})
          <$> batch, None) |}.

Definition quiet : EventListenerT :=
  {| FlowWillStartFunc := None; FlowWillEndFunc := Some None;
     WillWork := λ _, (true, None) |}.

Definition plainInfo (workers : Z) (stop : bool) : Info :=
  {| Force := true; WorkerCount := workers; StopWhenWorkError := stop |}.

Definition plainFlow (script : list Provided) (workers : WorkerProviderT)
    (info : Info) (batchMax : Z) : Flow :=
  {| fInfo := info; WorkProvider := Some script;
     WorkerProvider := Some workers; DoWorkInfoListMaxCount := batchMax;
     Limit := None; EventListener := quiet; Overseer := None;
     Skipper := None; Redo := None; workErrorHappened := false |}.

(** An overseer keyed by [Data]: a work is done if a record for it is held. *)
Definition byData : list WorkRecord → WorkInfo → bool * option WorkRecord :=
  λ held w,
    match filter (λ r, (Data <$> rWorkInfo r) = Some (Data w)) held with
    | r :: _ => (true, Some r)
    | [] => (false, None)
    end.

Definition withOverseer (f : Flow) (held : list WorkRecord) : Flow :=
  {| fInfo := fInfo f; WorkProvider := WorkProvider f;
     WorkerProvider := WorkerProvider f;
     DoWorkInfoListMaxCount := DoWorkInfoListMaxCount f;
     Limit := Limit f; EventListener := EventListener f;
     Overseer := Some {| Recorded := held; GetWorkRecordIfHasDone := byData |};
     Skipper := Skipper f; Redo := Redo f;
     workErrorHappened := workErrorHappened f |}.

Definition withLimit (f : Flow) (l : AutoLimit) : Flow :=
  {| fInfo := fInfo f; WorkProvider := WorkProvider f;
     WorkerProvider := WorkerProvider f;
     DoWorkInfoListMaxCount := DoWorkInfoListMaxCount f;
     Limit := Some l; EventListener := EventListener f;
     Overseer := Overseer f; Skipper := Skipper f; Redo := Redo f;
     workErrorHappened := workErrorHappened f |}.

(** A limiter that takes code 573 for a throttling signal. *)
Definition on573 : AutoLimit :=
  {| IsLimitError := λ _ e,
       match e with Some e => Code e =? 573 | None => false end |}.

(** A flow whose batch size was left at Go's zero value. *)
Definition unsized : Flow :=
  plainFlow [] (λ _, inl diligent) (plainInfo 0 false) 0.


Definition missingParam : CodeError := NewError ErrorCodeParamMissing "no key".

Definition faultyScript : list Provided :=
  [ {| hasMore := false; workInfo := None; err := Some missingParam |};
    {| hasMore := false; workInfo := Some (work "b"); err := Some boom |};
    offer (work "c") ].

Definition faultyFlow : Flow :=
  plainFlow faultyScript (λ _, inl diligent) (plainInfo 1 false) 2.

(** A listener that refuses the work named "b". *)
Definition picky : Flow :=
  {| fInfo := plainInfo 1 false;
     WorkProvider := Some [offer (work "a"); offer (work "b")];
     WorkerProvider := Some (λ _, inl diligent);
     DoWorkInfoListMaxCount := 2; Limit := None;
     EventListener :=
       {| FlowWillStartFunc := None; FlowWillEndFunc := None;
          WillWork := λ w, if String.eqb (Data w) "b"
                           then (false, Some boom) else (true, None) |};
     Overseer := Some {| Recorded := []; GetWorkRecordIfHasDone := byData |};
     Skipper := Some {| ShouldSkip := λ _, (false, None) |};
     Redo := None; workErrorHappened := false |}.

Definition failedBefore (w : WorkInfo) : WorkRecord :=
  {| rWorkInfo := Some w; rResult := None; rErr := Some boom |}.

Definition resumed (held : list WorkRecord) : Flow :=
  withOverseer
    (plainFlow [offer (work "a")] (λ _, inl diligent) (plainInfo 1 false) 2)
    held.

Definition twoWorks : list Provided := [offer (work "a"); offer (work "b")].

Definition threeWorks : list Provided :=
  [offer (work "a"); offer (work "b"); offer (work "c")].

(** Three works, one consumer, batches of two, a worker that succeeds. *)
Definition happy : Flow :=
  plainFlow threeWorks (λ _, inl diligent) (plainInfo 1 false) 2.

Definition happySchedule : list Action :=
  [Produce; Produce; Produce; Produce; Produce;
   Consume 0; Consume 0; Produce; Consume 0; Consume 0; Wait].

(** Two works in one batch, and a worker whose call fails as a whole. *)
Definition unhappy : Flow :=
  plainFlow twoWorks (λ _, inl broken) (plainInfo 1 false) 2.

Definition unhappySchedule : list Action :=
  [Produce; Produce; Produce; Produce; Consume 0; Consume 0; Wait].

(** Three works in batches of one, a worker whose items fail, and
    [StopWhenWorkError]. *)
Definition hasty : Flow :=
  plainFlow threeWorks (λ _, inl throttled) (plainInfo 1 true) 1.

Definition hastySchedule : list Action :=
  [Produce; Produce; Produce; Consume 0; Consume 0; Produce; Produce; Wait].

(** No worker can be built. *)
Definition orphaned : Flow :=
  plainFlow twoWorks (λ _, inr boom) (plainInfo 1 false) 2.

Definition orphanedSchedule : list Action :=
  [Consume 0; Produce; Produce; Produce; Produce].

(** Two works in one batch, and a worker that answers with nothing at
    all: no records, no error. *)
Definition careless : Worker := {| DoWork := λ _, ([], None) |}.

Definition neglected : Flow :=
  plainFlow twoWorks (λ _, inl careless) (plainInfo 1 false) 2.

Definition neglectedSchedule : list Action :=
  [Produce; Produce; Produce; Produce; Consume 0; Consume 0; Consume 0; Wait].

Definition finalState (f : Flow) (schedule : list Action) : State :=
  default (launch f) (run f schedule (launch f)).

(** ** Proof automation *)

Ltac stages :=
  unfold admission, skipperStage, overseerStage, listenerStage, andThen;
  repeat case_match; simplify_eq; simpl in *.

(** * Further definitions *)

(** ** More readers of a trace *)

Definition sentBatch (e : Event) : option (list WorkInfo) :=
  match e with ChanSend batch => Some batch | _ => None end.

Definition workedBatch (e : Event) : option (list WorkInfo) :=
  match e with CallDoWork batch => Some batch | _ => None end.

Definition recordedBy (e : Event) : option WorkRecord :=
  match e with CallWorkDone r => Some r | _ => None end.

Definition askedListener (e : Event) : option WorkInfo :=
  match e with CallWillWork w => Some w | _ => None end.

Definition isWillEnd (e : Event) : bool :=
  match e with CallFlowWillEnd => true | _ => false end.

(** The works the listener's [WillWork] let through, in the order asked. *)
Definition accepted (f : Flow) (evs : list Event) : list WorkInfo :=
  List.filter (λ w, (WillWork (EventListener f) w).1)
              (omap askedListener evs).

(** The accepted works the producer has not sent yet. *)
Definition inHand (st : State) : list WorkInfo :=
  match producer st with
  | Producing | Panicked => workList st
  | Sending batch false => batch ++ workList st
  | Sending batch true => batch
  | Finished => []
  end.

(** A consumer that has left its loop through [wait.Done()]. *)
Definition exited (c : ConsumerStatus) : Prop := ∃ why, c = Exited why.

(** No lookup of the overseer makes the producer dereference a nil
    [workRecord]. *)
Definition neverFaults (f : Flow) : Prop :=
  ∀ store w, (overseerStage f store w).2 ≠ Fault.

Definition ended (m : MainStatus) : bool :=
  match m with Ended => true | Waiting => false end.

(** A batch of exactly [DoWorkInfoListMaxCount] works. *)
Definition isFull (f : Flow) (batch : list WorkInfo) : Prop :=
  Z.of_nat (length batch) = DoWorkInfoListMaxCount f.

(** The caller of [Start] and the WaitGroup. *)
Record Joined (f : Flow) (st : State) : Prop := {
  joined_counted : Counted st;
  joined_crew : length (consumers st) = capacity f;
  joined_ended : main st = Ended → Forall exited (consumers st);
  joined_hook :
    List.filter isWillEnd (trace (shared st))
    = if ended (main st) && notNil (FlowWillEndFunc (EventListener f))
      then [CallFlowWillEnd] else []
}.

(** Batches leave the channel once, and in the order they entered it. *)
Record Queued (st : State) : Prop := {
  once :
    omap workedBatch (trace (shared st)) ++ workChan st
    ⊆+ omap sentBatch (trace (shared st));
  fifo :
    interrupt st = false →
    omap workedBatch (trace (shared st)) ++ workChan st
    = omap sentBatch (trace (shared st))
}.

(** The producer neither loses nor reorders the works it accepted, and
    fills every batch but the last. *)
Record Conserved (f : Flow) (st : State) : Prop := {
  conserved_batched : Batched f st;
  conserved :
    concat (omap sentBatch (trace (shared st))) ++ inHand st
    = accepted f (trace (shared st));
  sending_full : ∀ b, producer st = Sending b false → isFull f b;
  sent_full :
    producer st ≠ Finished →
    Forall (isFull f) (omap sentBatch (trace (shared st)));
  sent_full_but_last :
    Forall (isFull f) (removelast (omap sentBatch (trace (shared st))))
}.

(** The events of [resultHandler]: the overseer's [WorkDone] and the
    listener's outcome of a record. *)
Definition aboutRecord (e : Event) : bool :=
  match e with
  | CallWorkDone _ | OnWorkFail _ _ | OnWorkSuccess _ _ => true
  | _ => false
  end.

(** An overseer that names a record whenever it reports a work as done. *)
Definition namesRecord (f : Flow) : Prop :=
  ∀ o store w,
    Overseer f = Some o → GetWorkRecordIfHasDone o store w ≠ (true, None).

(** The producer has left its loop: it is closing the channel, after a last
    send if its buffer was not empty. *)
Definition closing (status : ProducerStatus) : Prop :=
  status = Finished ∨ ∃ batch, status = Sending batch true.

(** A consumer that will not receive again. *)
Definition gone (c : ConsumerStatus) : Prop := c = Returned ∨ exited c.

(** The three works of [happy], with an overseer that starts empty. *)
Definition overseen : Flow := withOverseer happy [].

(** A state of [hasty] in which the interrupt flag was raised while a batch
    was queued. *)
Definition interruptedState : State :=
  finalState hasty [Produce; Produce; Consume 0; Interrupt].

(** A flow resumed over one failed work, with a redo policy that declines
    and gives a cause of its own. *)
Definition stubborn : Flow :=
  {| fInfo := plainInfo 1 false;
     WorkProvider := Some [offer (work "a")];
     WorkerProvider := Some (λ _, inl diligent);
     DoWorkInfoListMaxCount := 2; Limit := None; EventListener := quiet;
     Overseer := Some {| Recorded := [failedBefore (work "a")];
                         GetWorkRecordIfHasDone := byData |};
     Skipper := None;
     Redo := Some {| ShouldRedo := λ _ _, (false, Some boom) |};
     workErrorHappened := false |}.

(** A limiter over a worker whose call fails as a whole. *)
Definition leaky : Flow :=
  withLimit (plainFlow twoWorks (λ _, inl broken) (plainInfo 1 false) 2) on573.

(** ** Package [operations]: [SyncInfo]

    [SyncInfo] is [UploadInfo], declared outside the sources at hand; the
    fields are those [SyncInfo.Check] reads. *)
Record SyncInfo := {
  FilePath : string;
  ToBucket : string;
  SaveKey : string;
  Overwrite : bool
}.

(** Modelled from the spec: [alert.Error] is declared in package [alert],
    outside the sources at hand; like [alert.CannotEmptyError] it builds a
    non-nil error from its description. *)
Definition alertError (desc : string) : CodeError := NewError 0 desc.

(** [func (info *SyncInfo) Check() *data.CodeError], over the answer of
    [utils.IsNetworkSource], which is declared outside the sources at
    hand. *)
Definition SyncInfo_Check (IsNetworkSource : string → bool) (info : SyncInfo)
  : option CodeError :=
  if (String.length (FilePath info) =? 0)%nat
  then Some (CannotEmptyError "SrcResUrl")
  else if negb (IsNetworkSource (FilePath info))
  then Some (alertError "sync only for network source")
  else if (String.length (ToBucket info) =? 0)%nat
  then Some (CannotEmptyError "Bucket")
  else if Overwrite info && (String.length (SaveKey info) =? 0)%nat
  then Some (CannotEmptyError "Overwrite mode and Key")
  else None.

(** ** Measures of the work left *)

(** Steps the producer still has to take, at most. *)
Definition producerWork (st : State) : nat :=
  match producer st with
  | Producing => 3 * length (provider st) + 3
  | Sending _ false => 3 * length (provider st) + 4
  | Sending _ true => 1
  | Finished | Panicked => 0
  end.

Definition consumerWeight (c : ConsumerStatus) : nat :=
  match c with Spawned => 2 | Ranging _ => 1 | _ => 0 end.

(** Steps the consumers still have to take, at most, if the producer stood
    still. *)
Definition consumerWork (st : State) : nat :=
  length (workChan st) + sum_list (consumerWeight <$> consumers st).

(** A state from which nothing keeps [Start] from returning. *)
Record Alive (st : State) : Prop := {
  alive_counted : Counted st;
  alive_producer : producer st ≠ Panicked;
  alive_consumers : Forall (λ c, c ≠ Returned) (consumers st)
}.

(** * Properties *)

(** ** Configuration repair *)

Lemma Info_Check_WorkerCount (i : Info) : 1 ≤ WorkerCount (Info_Check i).1.
Proof.
  unfold Info_Check; simpl.
  destruct (Z.ltb_spec (WorkerCount i) 1); simpl; lia.
Qed.

Lemma Info_Check_idempotent (i : Info) :
  Info_Check (Info_Check i).1 = Info_Check i.
Proof.
  unfold Info_Check; simpl.
  destruct (Z.ltb_spec (WorkerCount i) 1) as [Hlt|Hge]; simpl.
  - reflexivity.
  - destruct (Z.ltb_spec (WorkerCount i) 1); [lia | reflexivity].
Qed.

Lemma Flow_Check_ok (f f' : Flow) :
  Flow_Check f = (f', None) →
  1 ≤ WorkerCount (fInfo f') ∧ 1 ≤ DoWorkInfoListMaxCount f'
  ∧ WorkProvider f' = WorkProvider f ∧ WorkerProvider f' = WorkerProvider f
  ∧ is_Some (WorkProvider f) ∧ is_Some (WorkerProvider f)
  ∧ Limit f' = Limit f ∧ EventListener f' = EventListener f
  ∧ Overseer f' = Overseer f ∧ Skipper f' = Skipper f ∧ Redo f' = Redo f.
Proof.
  unfold Flow_Check, Flow_Info_Check.
  pose proof (Info_Check_WorkerCount (fInfo f)) as Hw.
  destruct (Info_Check (fInfo f)) as [i e] eqn:Hi.
  assert (e = None) as -> by (unfold Info_Check in Hi; congruence).
  simpl in *.
  destruct (WorkProvider f) eqn:Hp; [|discriminate].
  destruct (WorkerProvider f) eqn:Hq; [|discriminate].
  destruct (Z.ltb_spec (DoWorkInfoListMaxCount f) 1);
    intros [= <-]; simpl; rewrite ?Hp, ?Hq; repeat split; eauto; lia.
Qed.

(** C4, as stated, fails: [Info.Check] has no access to
    [DoWorkInfoListMaxCount], a field of [Flow]; after [f.Info.Check()] on a
    flow with batch size 0 the batch size is still 0. *)
Lemma Info_Check_leaves_batch_size :
  ¬ (1 ≤ WorkerCount (fInfo (Flow_Info_Check unsized).1)
     ∧ 1 ≤ DoWorkInfoListMaxCount (Flow_Info_Check unsized).1).
Proof. vm_compute. intros [_ H]. apply H. reflexivity. Qed.

(** C4, amended: [Info.Check] is idempotent, returns nil and leaves
    [WorkerCount] at least 1, without touching [DoWorkInfoListMaxCount];
    it is [Flow.Check] that clamps [DoWorkInfoListMaxCount] to at least 1,
    and only when it returns nil (both providers set); when it returns an
    error the batch size is as it was. *)
Theorem Check_repairs (f : Flow) :
  Info_Check (Info_Check (fInfo f)).1 = Info_Check (fInfo f)
  ∧ (Info_Check (fInfo f)).2 = None
  ∧ 1 ≤ WorkerCount (Info_Check (fInfo f)).1
  ∧ DoWorkInfoListMaxCount (Flow_Info_Check f).1 = DoWorkInfoListMaxCount f
  ∧ match Flow_Check f with
    | (f', None) =>
      1 ≤ WorkerCount (fInfo f') ∧ 1 ≤ DoWorkInfoListMaxCount f'
    | (f', Some _) => DoWorkInfoListMaxCount f' = DoWorkInfoListMaxCount f
    end.
Proof.
  split; [apply Info_Check_idempotent|].
  split; [reflexivity|].
  split; [apply Info_Check_WorkerCount|].
  split; [reflexivity|].
  destruct (Flow_Check f) as [f' [e|]] eqn:Hc.
  - revert Hc. unfold Flow_Check, Flow_Info_Check, Info_Check; simpl.
    destruct (WorkProvider f); [|by intros [= <- _]].
    destruct (WorkerProvider f); [|by intros [= <- _]].
    discriminate.
  - apply Flow_Check_ok in Hc. tauto.
Qed.

(** ** The consumer's dispatch of records *)

Lemma resultHandler_trace (f : Flow) (r : WorkRecord) (sh : Shared) :
  trace (resultHandler f r sh) = trace sh ++ reported f r.
Proof.
  destruct r as [w res [e|]]; unfold resultHandler, reported; simpl;
    destruct (Overseer f); simpl; by rewrite <- ?app_assoc.
Qed.

Lemma resultHandler_store (f : Flow) (r : WorkRecord) (sh : Shared) :
  store (resultHandler f r sh)
  = if notNil (Overseer f) then r :: store sh else store sh.
Proof.
  destruct r as [w res [e|]]; unfold resultHandler; simpl;
    by destruct (Overseer f).
Qed.

Lemma resultHandler_failed (f : Flow) (r : WorkRecord) (sh : Shared) :
  failed (resultHandler f r sh) = notNil (rErr r) || failed sh.
Proof.
  destruct r as [w res [e|]]; unfold resultHandler; simpl;
    by destruct (Overseer f).
Qed.


Lemma dispatch_trace (f : Flow) workErr records hit sh :
  trace (dispatch f workErr records hit sh).2
  = trace sh ++ ((fallback workErr <$> records) ≫= reported f).
Proof.
  revert hit sh.
  induction records as [|r records IH]; intros hit sh; simpl.
  - by rewrite app_nil_r.
  - rewrite IH, resultHandler_trace. by rewrite <- app_assoc.
Qed.

Lemma dispatch_failed (f : Flow) workErr records hit sh :
  failed (dispatch f workErr records hit sh).2
  = existsb (λ r, notNil (rErr r)) (fallback workErr <$> records)
    || failed sh.
Proof.
  revert hit sh.
  induction records as [|r records IH]; intros hit sh; simpl; [done|].
  rewrite IH, resultHandler_failed.
  by destruct (notNil _), (existsb _ _), (failed sh).
Qed.

(** C8 (fallback error): a record with no error of its own and no valid
    result is dispatched with the batch error as its [Err]: the overseer is
    handed the record with [Err = batchErr] and the listener gets
    [OnWorkFail] with the batch error (with a nil batch error the record's
    error stays nil); a record with its own error or a valid result is
    dispatched as the worker returned it. *)
Theorem fallback_error (f : Flow) (workErr : option CodeError)
    (record : WorkRecord) (rest : list WorkRecord) (hit : Z) (sh : Shared) :
  let record' :=
    if lacksOutcome record
    then {| rWorkInfo := rWorkInfo record; rResult := rResult record;
            rErr := workErr |}
    else record in
  (lacksOutcome record
   = match rErr record, rResult record with
     | None, None => true
     | None, Some res => negb (IsValid res)
     | Some _, _ => false
     end)
  ∧ dispatch f workErr (record :: rest) hit sh
    = dispatch f workErr rest
        (if isHitLimit f record' then hit + 1 else hit)
        (resultHandler f record' sh)
  ∧ trace (resultHandler f record' sh)
    = trace sh
      ++ (if notNil (Overseer f) then [CallWorkDone record'] else [])
      ++ [if lacksOutcome record
          then match workErr with
               | Some batchErr => OnWorkFail (rWorkInfo record) batchErr
               | None => OnWorkSuccess (rWorkInfo record) (rResult record)
               end
          else match rErr record with
               | Some own => OnWorkFail (rWorkInfo record) own
               | None => OnWorkSuccess (rWorkInfo record) (rResult record)
               end].
Proof.
  split; [|split].
  - unfold lacksOutcome.
    destruct (rErr record), (rResult record) as [res|]; simpl;
      try destruct (IsValid res); reflexivity.
  - reflexivity.
  - rewrite resultHandler_trace. unfold reported.
    destruct (lacksOutcome record); simpl; reflexivity.
Qed.

(** C10: once the fallback has been applied, the choice between
    [OnWorkSuccess] and [OnWorkFail] looks at [Err] alone, never at the
    result; so a record with nil [Err], a nil batch error and a nil or
    invalid result is recorded by the overseer (when there is one) and then
    reported through [OnWorkSuccess]. *)
Theorem success_iff_no_error (f : Flow) (workErr : option CodeError)
    (record : WorkRecord) (sh : Shared) :
  let r := fallback workErr record in
  let sh' := resultHandler f r sh in
  trace sh' = trace sh
              ++ (if notNil (Overseer f) then [CallWorkDone r] else [])
              ++ [match rErr r with
                  | None => OnWorkSuccess (rWorkInfo record) (rResult record)
                  | Some e => OnWorkFail (rWorkInfo record) e
                  end]
  ∧ store sh' = (if notNil (Overseer f) then [r] else []) ++ store sh
  ∧ (if lacksOutcome record && negb (notNil workErr)
     then r = record ∧ rErr r = None
          ∧ trace sh'
            = trace sh
              ++ (if notNil (Overseer f) then [CallWorkDone record] else [])
              ++ [OnWorkSuccess (rWorkInfo record) (rResult record)]
     else True).
Proof.
  assert (rWorkInfo (fallback workErr record) = rWorkInfo record
          ∧ rResult (fallback workErr record) = rResult record) as [Hw Hr]
    by (unfold fallback; destruct (lacksOutcome record); done).
  simpl. rewrite resultHandler_trace, resultHandler_store.
  unfold reported. rewrite Hw, Hr.
  split; [reflexivity|].
  split; [by destruct (notNil (Overseer f))|].
  destruct (lacksOutcome record) eqn:Hl; [|done].
  destruct workErr as [e|]; [done|]. simpl.
  assert (fallback None record = record) as ->.
  { unfold fallback. rewrite Hl. unfold lacksOutcome in Hl.
    destruct record as [w res [e|]]; simpl in *; [|done].
    by rewrite andb_false_r in Hl. }
  unfold lacksOutcome in Hl.
  destruct (rErr record); [by rewrite andb_false_r in Hl|done].
Qed.

(** ** Throttling *)





(** ** The producer: provider errors *)

(** C7: an answer of the provider with a non-nil error costs one listener
    event, [OnWorkSkip(workInfo, nil, err)] for [ErrorCodeParamMissing] and
    [OnWorkFail(workInfo, err)] for every other code; the producer stays in
    its loop, whatever [hasMore] says, with its buffer and the channel as
    they were, and the next action pulls the next answer. *)
Theorem provider_error_is_not_terminal (f : Flow) (st : State)
    (p : Provided) (rest : list Provided) (e : CodeError) :
  producer st = Producing →
  provider st = p :: rest →
  err p = Some e →
  ∃ st',
    step f Produce st = Some st'
    ∧ trace (shared st')
      = trace (shared st)
        ++ [if Code e =? ErrorCodeParamMissing
            then OnWorkSkip (workInfo p) None (Some e)
            else OnWorkFail (workInfo p) e]
    ∧ producer st' = Producing
    ∧ provider st' = rest
    ∧ workList st' = workList st
    ∧ workChan st' = workChan st
    ∧ store (shared st') = store (shared st).
Proof.
  intros Hs Hp He.
  unfold step, stepProduce, produce. rewrite Hs, Hp, He.
  destruct (Code e =? ErrorCodeParamMissing); eexists; (split; [reflexivity|]);
    simpl; done.
Qed.

(** The first answer of a provider: a missing parameter, no work and
    [hasMore = false]; the producer goes on. *)
Lemma provider_error_sample :
  (∃ st', step faultyFlow Produce (launch faultyFlow) = Some st'
          ∧ trace (shared st') = [OnWorkSkip None None (Some missingParam)]
          ∧ producer st' = Producing
          ∧ provider st' = tail faultyScript
          ∧ workList st' = [] ∧ workChan st' = []
          ∧ store (shared st') = []).
Proof.
  exact (provider_error_is_not_terminal faultyFlow (launch faultyFlow)
           _ _ missingParam eq_refl eq_refl eq_refl).
Defined.

(** ** The producer: admission *)

Lemma andThen_accept (a b : Stage) :
  a.2 = Accept → andThen a b = (a.1 ++ b.1, b.2).
Proof. destruct a as [evs v]; simpl; by intros ->. Qed.

Lemma andThen_stop (a b : Stage) : a.2 ≠ Accept → andThen a b = a.
Proof. destruct a as [evs []]; simpl; done. Qed.

Lemma produce_item (f : Flow) store (w : WorkInfo) more workList :
  is_Some (Work_ w) →
  produce f {| hasMore := more; workInfo := Some w; err := None |}
          workList store
  = match admission f store w with
    | (evs, Reject) => (evs, workList, Producing)
    | (evs, Fault) => (evs, workList, Panicked)
    | (evs, Accept) =>
      if DoWorkInfoListMaxCount f <=? Z.of_nat (length (workList ++ [w]))
      then (evs, [], Sending (workList ++ [w]) false)
      else (evs, workList ++ [w], Producing)
    end.
Proof. intros [payload Hw]. unfold produce. simpl. by rewrite Hw. Qed.

Lemma admission_consults_in_order (f : Flow) store (w : WorkInfo) :
  sublist (omap consulted (admission f store w).1)
          [AskSkipper; AskOverseer; AskRedo; AskListener].
Proof. stages; repeat constructor. Qed.

Lemma admission_listener_after (f : Flow) store (w : WorkInfo) :
  CallWillWork w ∈ (admission f store w).1 →
  (skipperStage f w).2 = Accept ∧ (overseerStage f store w).2 = Accept.
Proof.
  stages; intros Hin; try done;
    repeat match goal with
           | H : _ ∈ _ :: _ |- _ => apply elem_of_cons in H as [H|H]
           | H : _ ∈ [] |- _ => by apply elem_of_nil in H
           end; done.
Qed.

Lemma admission_outcome (f : Flow) store (w : WorkInfo) :
  match (admission f store w).2 with
  | Accept =>
    List.filter isSkip (admission f store w).1 = []
    ∧ last (admission f store w).1 = Some (CallWillWork w)
  | Reject =>
    ∃ evs' res cause,
      (admission f store w).1 = evs' ++ [OnWorkSkip (Some w) res cause]
      ∧ List.filter isSkip evs' = []
  | Fault => List.filter isSkip (admission f store w).1 = []
  end.
Proof.
  stages; try done;
    try (eexists _, _, _; split;
         [ first [ exact (eq_refl ([] ++ [_]))
                 | exact (eq_refl ([_] ++ [_]))
                 | exact (eq_refl ([_; _] ++ [_]))
                 | exact (eq_refl ([_; _; _] ++ [_]))
                 | exact (eq_refl ([_; _; _; _] ++ [_])) ]
         | reflexivity ]).
Qed.

(** C5 (admission order): for an item with a payload, the skipper, the
    overseer, the redo policy and the listener are asked in this order, each
    at most once.  A skipping skipper ends the pass with
    [OnWorkSkip(work, nil, cause)]; the listener is asked only once both
    earlier checks let the item through, and its refusal ends the pass with
    [OnWorkSkip(work, nil, err)].  A pass fires [OnWorkSkip] at most once, as
    its last event, and then leaves the buffer as it was; only an item that
    passed all checks is appended to the buffer. *)
Theorem admission_is_ordered (f : Flow) (store : list WorkRecord)
    (w : WorkInfo) (more : bool) (workList : list WorkInfo) :
  is_Some (Work_ w) →
  let evs := (admission f store w).1 in
  let p := {| hasMore := more; workInfo := Some w; err := None |} in
  sublist (omap consulted evs) [AskSkipper; AskOverseer; AskRedo; AskListener]
  ∧ (∀ s cause,
        Skipper f = Some s → ShouldSkip s w = (true, cause) →
        admission f store w
        = ([CallShouldSkip w; OnWorkSkip (Some w) None cause], Reject))
  ∧ (CallWillWork w ∈ evs →
     (skipperStage f w).2 = Accept ∧ (overseerStage f store w).2 = Accept)
  ∧ (∀ e,
        (skipperStage f w).2 = Accept →
        (overseerStage f store w).2 = Accept →
        WillWork (EventListener f) w = (false, e) →
        admission f store w
        = ((skipperStage f w).1 ++ (overseerStage f store w).1
           ++ [CallWillWork w; OnWorkSkip (Some w) None e], Reject))
  ∧ match (admission f store w).2 with
    | Accept =>
      List.filter isSkip evs = []
      ∧ last evs = Some (CallWillWork w)
      ∧ produce f p workList store
        = if DoWorkInfoListMaxCount f <=? Z.of_nat (length (workList ++ [w]))
          then (evs, [], Sending (workList ++ [w]) false)
          else (evs, workList ++ [w], Producing)
    | Reject =>
      (∃ evs' res cause,
          evs = evs' ++ [OnWorkSkip (Some w) res cause]
          ∧ List.filter isSkip evs' = [])
      ∧ produce f p workList store = (evs, workList, Producing)
    | Fault =>
      List.filter isSkip evs = []
      ∧ produce f p workList store = (evs, workList, Panicked)
    end.
Proof.
  intros Hw evs p.
  split; [apply admission_consults_in_order|].
  split.
  { intros s cause Hs Hc. unfold admission, skipperStage.
    by rewrite Hs, Hc. }
  split; [apply admission_listener_after|].
  split.
  { intros e Hs Ho He. unfold admission.
    rewrite andThen_accept by done.
    rewrite andThen_accept by done. simpl.
    unfold listenerStage. by rewrite He. }
  pose proof (admission_outcome f store w) as Ho.
  pose proof (produce_item f store w more workList Hw) as Hp.
  fold p in Hp. subst evs.
  destruct (admission f store w) as [evs []]; simpl in *; rewrite Hp.
  - destruct Ho. by destruct (_ <=? _).
  - done.
  - done.
Qed.

(** A work the skipper and the overseer let through and the listener
    refuses. *)
Lemma admission_sample :
  admission picky [] (work "b")
  = ([CallShouldSkip (work "b"); CallGetWorkRecordIfHasDone (work "b");
      CallWillWork (work "b"); OnWorkSkip (Some (work "b")) None (Some boom)],
     Reject)
  ∧ produce picky (offer (work "b")) [work "a"] []
    = ((admission picky [] (work "b")).1, [work "a"], Producing).
Proof.
  pose proof (admission_is_ordered picky [] (work "b") true [work "a"]
                (ex_intro _ "b"%string eq_refl)) as (_ & _ & _ & H & Ho).
  split.
  - exact (H (Some boom) eq_refl eq_refl eq_refl).
  - exact (proj2 Ho).
Defined.

(** ** The producer: works already done *)

(** C3: with an overseer, no redo policy and a skipper that lets the work
    pass, a work reported as done is skipped, whatever its prior record
    holds: the listener gets [OnWorkSkip] with the prior result and an error
    of code [ErrorCodeAlreadyDone] whose description is that of the prior
    record's [Err] (its [Desc] when the prior record carries an error, and
    what [Error()] gives on nil for a recorded success); the listener's
    [WillWork] is not asked and the work is not appended to the buffer. *)
Theorem already_done_is_skipped (f : Flow) (o : OverseerT)
    (store : list WorkRecord) (w : WorkInfo) (prior : WorkRecord)
    (more : bool) (workList : list WorkInfo) :
  is_Some (Work_ w) →
  Overseer f = Some o →
  Redo f = None →
  (skipperStage f w).2 = Accept →
  GetWorkRecordIfHasDone o store w = (true, Some prior) →
  let cause :=
    NewError ErrorCodeAlreadyDone (CodeError_Error (rErr prior)) in
  let evs :=
    (skipperStage f w).1
    ++ [CallGetWorkRecordIfHasDone w;
        OnWorkSkip (Some w) (rResult prior) (Some cause)] in
  admission f store w = (evs, Reject)
  ∧ Code cause = ErrorCodeAlreadyDone
  ∧ (∀ e, rErr prior = Some e → Desc cause = Desc e)
  ∧ (CallWillWork w ∉ evs)
  ∧ produce f {| hasMore := more; workInfo := Some w; err := None |}
            workList store
    = (evs, workList, Producing).
Proof.
  intros Hw Ho Hr Hs Hg cause evs.
  assert (admission f store w = (evs, Reject)) as Ha.
  { unfold admission. rewrite andThen_accept by done.
    unfold overseerStage. by rewrite Ho, Hg, Hr. }
  split; [done|]. split; [done|].
  split; [intros e He; subst cause; cbn; by rewrite He|]. split.
  - intros Hin.
    pose proof (admission_listener_after f store w) as Hl.
    rewrite Ha in Hl. specialize (Hl Hin) as [_ Hl].
    unfold overseerStage in Hl. rewrite Ho, Hg, Hr in Hl. done.
  - rewrite produce_item by done. by rewrite Ha.
Qed.

(** A work recorded as a success by an earlier run: its prior [Err] is
    nil. *)
Lemma already_done_sample :
  admission (resumed [succeeded (work "a")]) [succeeded (work "a")]
            (work "a")
  = ([CallGetWorkRecordIfHasDone (work "a");
      OnWorkSkip (Some (work "a")) (Some okResult)
                 (Some (NewError ErrorCodeAlreadyDone EmptyString))],
     Reject).
Proof.
  exact (proj1 (already_done_is_skipped
                  (resumed [succeeded (work "a")]) _
                  [succeeded (work "a")] (work "a")
                  (succeeded (work "a")) true []
                  (ex_intro _ "a"%string eq_refl)
                  eq_refl eq_refl eq_refl eq_refl)).
Defined.

(** ** Runs of the machine *)

Lemma run_invariant (f : Flow) (P : State → Prop) :
  (∀ a st st', P st → step f a st = Some st' → P st') →
  ∀ schedule st st', P st → run f schedule st = Some st' → P st'.
Proof.
  intros Hstep schedule.
  induction schedule as [|a schedule IH]; intros st st' HP; simpl.
  - by intros [= <-].
  - destruct (step f a st) as [st1|] eqn:Hs; simpl; [|done].
    apply IH. by eapply Hstep.
Qed.

Lemma Start_Launched (f f' : Flow) (verified : bool) (st : State) :
  Start f verified = Launched f' st →
  Flow_Check f = (f', None) ∧ st = launch f'.
Proof.
  unfold Start. destruct (Flow_Check f) as [g [e|]]; [done|].
  destruct (negb _ && negb _); [done|].
  destruct (FlowWillStartFunc (EventListener g)) as [[e|]|];
    [done| |]; by intros [= <- <-].
Qed.

Lemma Reaches_invariant (f f' : Flow) (verified : bool) (P : State → Prop) :
  (Flow_Check f = (f', None) → P (launch f')) →
  (Flow_Check f = (f', None) →
   ∀ a st st', P st → step f' a st = Some st' → P st') →
  ∀ st, Reaches f verified f' st → P st.
Proof.
  intros Hinit Hstep st (schedule & Hs & Hr).
  apply Start_Launched in Hs as [Hc _].
  eapply run_invariant; [by apply Hstep| |exact Hr]. by apply Hinit.
Qed.

Lemma admission_events (f : Flow) store (w : WorkInfo) :
  Forall (λ e, fromProducer e ∧ ∀ b, e ≠ ChanSend b) (admission f store w).1.
Proof. stages; repeat constructor; done. Qed.

Lemma produce_events (f : Flow) p workList store :
  Forall (λ e, fromProducer e ∧ ∀ b, e ≠ ChanSend b)
         (produce f p workList store).1.1.
Proof.
  unfold produce, flush.
  destruct (err p) as [e|].
  { destruct (Code e =? _); simpl; repeat constructor; done. }
  destruct (workInfo p ≫= _) as [w|].
  - pose proof (admission_events f store w) as Ha.
    destruct (admission f store w) as [evs []]; simpl in *; try done.
    by destruct (_ <=? _).
  - destruct (negb (hasMore p)); [|by constructor].
    destruct (0 <? length workList)%nat; simpl; repeat constructor; done.
Qed.

Lemma reported_events (f : Flow) (rs : list WorkRecord) :
  Forall (λ e, fromConsumer e) (rs ≫= reported f).
Proof.
  induction rs as [|r rs IH]; [constructor|].
  rewrite bind_cons. apply Forall_app. split; [|done].
  unfold reported.
  destruct (notNil (Overseer f)), (rErr r); repeat constructor.
Qed.

(** The events of one pass through the consumer loop body. *)
Lemma consume_trace (f : Flow) worker intr batch sh :
  ∃ evs,
    trace (consume f worker intr batch sh).1 = trace sh ++ evs
    ∧ Forall (λ e, fromConsumer e) evs
    ∧ ((consume f worker intr batch sh).2 = None →
       omap subject evs
       = omap subject ((fallback (DoWork worker batch).2
                          <$> (DoWork worker batch).1) ≫= reported f)).
Proof.
  unfold consume. destruct intr.
  { exists []. simpl. rewrite app_nil_r. repeat split; [constructor|done]. }
  destruct (DoWork worker batch) as [records workErr]. simpl.
  set (pre := match Limit f with
              | Some _ => [CallAcquire (Z.of_nat (length batch))]
              | None => []
              end ++ [CallDoWork batch]).
  set (sh0 := emit [CallDoWork batch] _).
  assert (trace sh0 = trace sh ++ pre) as H0.
  { subst sh0 pre. destruct (Limit f); simpl; by rewrite <- ?app_assoc. }
  assert (Forall (λ e, fromConsumer e) pre ∧ omap subject pre = []) as [Hp Hs].
  { subst pre. destruct (Limit f); simpl; repeat constructor. }
  clearbody sh0 pre. unfold settle.
  destruct ((length records =? 0)%nat && notNil workErr).
  { exists pre. simpl. done. }
  pose proof (dispatch_trace f workErr records 0 sh0) as Hd.
  destruct (dispatch f workErr records 0 sh0) as [hit sh1]. simpl in Hd.
  set (post := match Limit f with
               | Some _ =>
                 CallRelease (Z.of_nat (length batch))
                 :: (if 0 <? hit
                     then [CallAddLimitCount (-1 * hit);
                           CallSleep (Millisecond * 1500)]
                     else [])
               | None => []
               end).
  exists (pre ++ ((fallback workErr <$> records) ≫= reported f) ++ post).
  assert (Forall (λ e, fromConsumer e) post ∧ omap subject post = [])
    as [Hq Ht].
  { subst post. destruct (Limit f), (0 <? hit); simpl; repeat constructor. }
  split; [|split].
  - subst post. rewrite H0 in Hd.
    destruct (Limit f), (0 <? hit); simpl;
      match goal with |- context [if ?b then _ else _] => destruct b end;
      simpl; rewrite Hd, <- ?app_assoc; simpl; by rewrite ?app_nil_r.
  - rewrite !Forall_app. auto using reported_events.
  - intros _. by rewrite !omap_app, Hs, Ht, app_nil_r.
Qed.

Lemma Batched_launch (f : Flow) :
  1 ≤ DoWorkInfoListMaxCount f → Batched f (launch f).
Proof.
  intros Hm. split; simpl.
  - lia.
  - done.
  - intros b Hb. by apply elem_of_nil in Hb.
  - intros b Hb. destruct (notNil _); [|by apply elem_of_nil in Hb].
    apply elem_of_cons in Hb as [Hb|Hb]; [done|by apply elem_of_nil in Hb].
Qed.

(** ** Batching *)

Lemma not_sent (evs : list Event) (b : list WorkInfo) :
  Forall (λ e, fromProducer e ∧ ∀ b, e ≠ ChanSend b) evs → ChanSend b ∉ evs.
Proof.
  intros Hf Hin. rewrite Forall_forall in Hf.
  destruct (Hf _ Hin) as [_ Hne]. by apply (Hne b).
Qed.

Lemma not_sent_by_consumer (evs : list Event) (b : list WorkInfo) :
  Forall (λ e, fromConsumer e) evs → ChanSend b ∉ evs.
Proof.
  intros Hf Hin. rewrite Forall_forall in Hf. by apply Hf in Hin.
Qed.

Lemma stepProduce_Producing (f : Flow) (st st' : State) :
  producer st = Producing →
  stepProduce f st = Some st' →
  ∃ p rest,
    (provider st = p :: rest ∨ provider st = [] ∧ p = exhausted ∧ rest = [])
    ∧ st' = {| provider := rest;
               workList := (produce f p (workList st) (store (shared st))).1.2;
               producer := (produce f p (workList st) (store (shared st))).2;
               workChan := workChan st; consumers := consumers st;
               wait := wait st; interrupt := interrupt st; main := main st;
               shared := emit (produce f p (workList st)
                                 (store (shared st))).1.1 (shared st) |}.
Proof.
  intros Hp. unfold stepProduce. rewrite Hp.
  destruct (provider st) as [|p rest].
  - exists exhausted, []. split; [by right|].
    destruct (produce _ _ _ _) as [[evs wl] status]. by simplify_eq.
  - exists p, rest. split; [by left|].
    destruct (produce _ _ _ _) as [[evs wl] status]. by simplify_eq.
Qed.

Lemma produce_sized (f : Flow) p workList store :
  Z.of_nat (length workList) < DoWorkInfoListMaxCount f →
  let r := produce f p workList store in
  Z.of_nat (length r.1.2) < DoWorkInfoListMaxCount f
  ∧ ∀ b final, r.2 = Sending b final → sized f b.
Proof.
  intros Hb. unfold produce, flush, sized.
  destruct (err p) as [e|].
  { destruct (Code e =? _); simpl; done. }
  destruct (workInfo p ≫= _) as [w|].
  - destruct (admission f store w) as [evs []]; simpl; [|done..].
    rewrite length_app. simpl.
    destruct (Z.leb_spec (DoWorkInfoListMaxCount f)
                (Z.of_nat (length workList + 1))); simpl.
    + split; [lia|]. intros b final [= <- _]. rewrite length_app. simpl. lia.
    + rewrite length_app. simpl. split; [lia|done].
  - destruct (negb (hasMore p)); [|done].
    destruct (Nat.ltb_spec 0 (length workList)); simpl; [|done].
    split; [done|]. intros b final [= <- _]. lia.
Qed.

Lemma stepConsume_inv (f : Flow) (i : nat) (st st' : State) :
  stepConsume f i st = Some st' →
  (∃ provide,
      consumers st !! i = Some Spawned ∧ WorkerProvider f = Some provide
      ∧ st' = setConsumer i (match provide i with
                             | inl worker => Ranging worker
                             | inr _ => Returned
                             end) false st)
  ∨ (∃ worker batch rest,
        consumers st !! i = Some (Ranging worker)
        ∧ workChan st = batch :: rest
        ∧ st' = match (consume f worker (interrupt st) batch (shared st)).2 with
                | Some why =>
                  setConsumer i (Exited why) true
                    (receive rest
                       (consume f worker (interrupt st) batch (shared st)).1 st)
                | None =>
                  receive rest
                    (consume f worker (interrupt st) batch (shared st)).1 st
                end)
  ∨ (∃ worker,
        consumers st !! i = Some (Ranging worker)
        ∧ workChan st = [] ∧ producer st = Finished
        ∧ st' = setConsumer i (Exited ChannelDrained) true st).
Proof.
  unfold stepConsume.
  destruct (consumers st !! i) as [[|worker| |why]|]; try done.
  - destruct (WorkerProvider f) as [provide|]; [|done].
    intros Hs. left. exists provide. repeat split.
    destruct (provide i); by simplify_eq.
  - destruct (workChan st) as [|batch rest].
    + destruct (producer st); try done. intros [= <-].
      right. right. by exists worker.
    + intros Hs. right. left. exists worker, batch, rest. repeat split.
      destruct (consume _ _ _ _ _) as [sh [why|]]; by simplify_eq.
Qed.

Lemma stepWait_inv (f : Flow) (st st' : State) :
  stepWait f st = Some st' →
  main st = Waiting ∧ wait st = 0
  ∧ st' = {| provider := provider st; workList := workList st;
             producer := producer st; workChan := workChan st;
             consumers := consumers st; wait := wait st;
             interrupt := interrupt st; main := Ended;
             shared := emit (if notNil (FlowWillEndFunc (EventListener f))
                             then [CallFlowWillEnd] else [])
                            (shared st) |}.
Proof.
  unfold stepWait. destruct (main st); [|done].
  destruct (Z.eqb_spec (wait st) 0); [|done]. by intros [= <-].
Qed.

Lemma step_alive (f : Flow) (a : Action) (st st' : State) :
  step f a st = Some st' →
  producer st ≠ Panicked
  ∧ match a with
    | Produce => stepProduce f st
    | Consume i => stepConsume f i st
    | Wait => stepWait f st
    | Interrupt => stepInterrupt st
    end = Some st'.
Proof. unfold step. by destruct (producer st). Qed.

Lemma Batched_step (f : Flow) (a : Action) (st st' : State) :
  Batched f st → step f a st = Some st' → Batched f st'.
Proof.
  intros [Hb Hs Hq Ht] [_ Hstep]%step_alive.
  destruct a as [|i| |].
  - (* the producer *)
    destruct (producer st) as [|batch final| |] eqn:Hprod.
    + apply stepProduce_Producing in Hstep as (p & rest & _ & ->); [|done].
      destruct (produce_sized f p (workList st) (store (shared st)) Hb)
        as [Hb' Hs'].
      split; simpl; [done|done|done|].
      intros b [Hin|Hin]%elem_of_app; [by apply Ht|].
      by eapply not_sent in Hin; [|apply produce_events].
    + unfold stepProduce in Hstep. rewrite Hprod in Hstep.
      destruct (length (workChan st) <? capacity f)%nat; [|done].
      injection Hstep as <-. split; simpl; [done| | |].
      * by destruct final.
      * intros b [Hin|Hin]%elem_of_app; [by apply Hq|].
        apply list_elem_of_singleton in Hin as ->. by eapply Hs.
      * intros b [Hin|Hin]%elem_of_app; [by apply Ht|].
        apply elem_of_cons in Hin as [[= ->]|Hin]; [by eapply Hs|].
        destruct final; [|by apply elem_of_nil in Hin].
        apply elem_of_cons in Hin as [Hin|Hin];
          [done|by apply elem_of_nil in Hin].
    + unfold stepProduce in Hstep. by rewrite Hprod in Hstep.
    + unfold stepProduce in Hstep. by rewrite Hprod in Hstep.
  - (* a consumer *)
    apply stepConsume_inv in Hstep
      as [(provide & _ & _ & ->)|[(worker & batch & rest & _ & Hc & ->)
                                  |(worker & _ & _ & _ & ->)]].
    + by split.
    + destruct (consume_trace f worker (interrupt st) batch (shared st))
        as (evs & Htr & Hev & _).
      assert (∀ b, b ∈ rest → sized f b) as Hq'.
      { intros b Hin. apply Hq. rewrite Hc. by apply list_elem_of_further. }
      assert (∀ b, ChanSend b
                   ∈ trace (consume f worker (interrupt st) batch
                              (shared st)).1 → sized f b) as Ht'.
      { intros b. rewrite Htr. intros [Hin|Hin]%elem_of_app; [by apply Ht|].
        by apply not_sent_by_consumer in Hin. }
      destruct (consume _ _ _ _ _).2; by split.
    + by split.
  - (* the caller at wait.Wait() *)
    apply stepWait_inv in Hstep as (_ & _ & ->).
    split; simpl; [done|done|done|].
    intros b [Hin|Hin]%elem_of_app; [by apply Ht|].
    destruct (notNil _); [|by apply elem_of_nil in Hin].
    apply elem_of_cons in Hin as [Hin|Hin]; [done|by apply elem_of_nil in Hin].
  - injection Hstep as <-. by split.
Qed.

Lemma send_completes (f : Flow) (st : State) batch final :
  producer st = Sending batch final →
  (length (workChan st) < capacity f)%nat →
  ∃ st',
    step f Produce st = Some st'
    ∧ workChan st' = workChan st ++ [batch]
    ∧ producer st' = (if final then Finished else Producing)
    ∧ workList st' = workList st
    ∧ trace (shared st')
      = trace (shared st) ++ ChanSend batch :: if final then [ChanClose] else [].
Proof.
  intros Hp Hroom. unfold step, stepProduce. rewrite Hp.
  destruct (Nat.ltb_spec (length (workChan st)) (capacity f)); [|lia].
  eexists. split; [reflexivity|]. done.
Qed.

Lemma flush_at_end (f : Flow) (st : State) :
  producer st = Producing →
  atEnd st →
  ∃ st',
    step f Produce st = Some st'
    ∧ workChan st' = workChan st
    ∧ match workList st with
      | [] => producer st' = Finished
              ∧ trace (shared st') = trace (shared st) ++ [ChanClose]
      | _ :: _ => producer st' = Sending (workList st) true
                  ∧ trace (shared st') = trace (shared st)
      end.
Proof.
  intros Hp Hend. unfold step, stepProduce. rewrite Hp.
  assert (∃ p rest,
             match provider st with
             | [] => (exhausted, [])
             | p :: rest => (p, rest)
             end = (p, rest) ∧ lastAnswer p) as (p & rest & -> & He & Hw & Hm).
  { destruct Hend as [->|(p & rest & -> & Hl)]; [|by exists p, rest].
    by exists exhausted, []. }
  unfold produce, flush. rewrite He, Hw, Hm. simpl.
  destruct (workList st) as [|w wl]; simpl; eexists; (split; [reflexivity|]);
    simpl; by rewrite ?app_nil_r.
Qed.

Lemma accepted_item (f : Flow) (st : State) p rest w :
  producer st = Producing →
  provider st = p :: rest →
  err p = None → workInfo p = Some w → is_Some (Work_ w) →
  (admission f (store (shared st)) w).2 = Accept →
  ∃ st',
    step f Produce st = Some st'
    ∧ workChan st' = workChan st
    ∧ if DoWorkInfoListMaxCount f <=? Z.of_nat (length (workList st)) + 1
      then producer st' = Sending (workList st ++ [w]) false
           ∧ workList st' = []
      else producer st' = Producing ∧ workList st' = workList st ++ [w].
Proof.
  intros Hp Hs He Hw Hpay Ha. unfold step, stepProduce. rewrite Hp, Hs.
  replace p with {| hasMore := hasMore p; workInfo := Some w; err := None |}
    by (destruct p; simpl in *; by subst).
  rewrite produce_item by done.
  destruct (admission f (store (shared st)) w) as [evs v]. simpl in Ha.
  subst v. rewrite length_app. simpl.
  replace (Z.of_nat (length (workList st) + 1))
    with (Z.of_nat (length (workList st)) + 1) by lia.
  destruct (_ <=? _); eexists; (split; [reflexivity|]); done.
Qed.

Lemma Flow_Check_batch_size (f f' : Flow) :
  Flow_Check f = (f', None) →
  DoWorkInfoListMaxCount f' = Z.max 1 (DoWorkInfoListMaxCount f).
Proof.
  unfold Flow_Check, Flow_Info_Check. simpl.
  destruct (WorkProvider f); [|done]. destruct (WorkerProvider f); [|done].
  destruct (Z.ltb_spec (DoWorkInfoListMaxCount f) 1); intros [= <-]; simpl;
    lia.
Qed.

(** C9 (batching bounds): in every state [Flow.Start] can reach, each batch
    sent on the channel, each batch queued in it and the batch being sent
    have between 1 and [DoWorkInfoListMaxCount] items (the value [Flow.Check]
    repaired), and the buffer holds fewer; an accepted item that fills the
    buffer turns it into the batch to send and leaves the buffer empty; at
    the end of the provider's answers a non-empty buffer is sent as the last
    batch before the channel is closed, and with an empty buffer the channel
    is closed without a send. *)
Theorem batching (f f' : Flow) (verified : bool) (st : State) :
  Reaches f verified f' st →
  DoWorkInfoListMaxCount f' = Z.max 1 (DoWorkInfoListMaxCount f)
  ∧ (∀ b, ChanSend b ∈ trace (shared st) ∨ b ∈ workChan st
          ∨ (∃ final, producer st = Sending b final) →
          1 ≤ Z.of_nat (length b) ≤ DoWorkInfoListMaxCount f')
  ∧ Z.of_nat (length (workList st)) < DoWorkInfoListMaxCount f'
  ∧ (∀ p rest w,
        producer st = Producing → provider st = p :: rest →
        err p = None → workInfo p = Some w → is_Some (Work_ w) →
        (admission f' (store (shared st)) w).2 = Accept →
        ∃ st',
          step f' Produce st = Some st' ∧ workChan st' = workChan st
          ∧ if Z.of_nat (length (workList st)) + 1
               =? DoWorkInfoListMaxCount f'
            then producer st' = Sending (workList st ++ [w]) false
                 ∧ workList st' = []
            else producer st' = Producing
                 ∧ workList st' = workList st ++ [w])
  ∧ (producer st = Producing → atEnd st →
     ∃ st',
       step f' Produce st = Some st' ∧ workChan st' = workChan st
       ∧ match workList st with
         | [] => producer st' = Finished
                 ∧ trace (shared st') = trace (shared st) ++ [ChanClose]
         | _ :: _ => producer st' = Sending (workList st) true
                     ∧ trace (shared st') = trace (shared st)
         end)
  ∧ (∀ b final,
        producer st = Sending b final →
        (length (workChan st) < capacity f')%nat →
        ∃ st',
          step f' Produce st = Some st'
          ∧ workChan st' = workChan st ++ [b]
          ∧ producer st' = (if final then Finished else Producing)
          ∧ workList st' = workList st
          ∧ trace (shared st')
            = trace (shared st)
              ++ ChanSend b :: if final then [ChanClose] else []).
Proof.
  intros Hr.
  assert (Flow_Check f = (f', None)) as Hc.
  { destruct Hr as (? & Hs & _). by apply Start_Launched in Hs as [? _]. }
  assert (Batched f' st) as [Hb Hs Hq Ht].
  { eapply (Reaches_invariant f f'); [| |exact Hr].
    - intros _. apply Batched_launch. apply Flow_Check_ok in Hc. tauto.
    - intros _ a s s'. apply Batched_step. }
  split; [by apply Flow_Check_batch_size|].
  split; [unfold sized in *; intros b [?|[?|[final ?]]]; by eauto|].
  split; [done|].
  split.
  { intros p rest w Hp Hpr He Hw Hpay Ha.
    destruct (accepted_item f' st p rest w Hp Hpr He Hw Hpay Ha)
      as (st' & Hstep & Hch & Hcase).
    exists st'. split; [done|]. split; [done|].
    destruct (Z.leb_spec (DoWorkInfoListMaxCount f')
                (Z.of_nat (length (workList st)) + 1));
      destruct (Z.eqb_spec (Z.of_nat (length (workList st)) + 1)
                  (DoWorkInfoListMaxCount f')); try done; lia. }
  split; [apply flush_at_end|].
  intros b final. apply send_completes.
Qed.

(** The first batch of the three-work run. *)
Lemma batching_sample :
  1 ≤ Z.of_nat (length [work "a"; work "b"]) ≤ DoWorkInfoListMaxCount happy.
Proof.
  refine (proj1 (proj2
    (batching happy happy true (finalState happy happySchedule) _)) _ _).
  - exists happySchedule. split; reflexivity.
  - left. vm_compute. do 2 right. left.
Defined.

(** ** The WaitGroup *)

Lemma filter_insert_length {A} (P : A → bool) (l : list A) i c c' :
  l !! i = Some c →
  (length (List.filter P (<[i:=c']> l)) + (if P c then 1 else 0)
   = length (List.filter P l) + (if P c' then 1 else 0))%nat.
Proof.
  revert i. induction l as [|x l IH]; intros [|i]; simpl; try done.
  - intros [= ->]. destruct (P c), (P c'); simpl; lia.
  - intros Hl. specialize (IH _ Hl). destruct (P x); simpl; lia.
Qed.

Lemma filter_lookup_pos {A} (P : A → bool) (l : list A) i c :
  l !! i = Some c → P c = true → (1 ≤ length (List.filter P l))%nat.
Proof.
  revert i. induction l as [|x l IH]; intros [|i]; simpl; try done.
  - intros [= ->] ->. simpl. lia.
  - intros Hl Hc. specialize (IH _ Hl Hc). destruct (P x); simpl; lia.
Qed.

Lemma filter_replicate_length {A} (P : A → bool) (n : nat) (x : A) :
  P x = true → length (List.filter P (replicate n x)) = n.
Proof. intros Hx. induction n; simpl; [done|]. rewrite Hx. simpl. lia. Qed.

Lemma Counted_launch (f : Flow) : 0 ≤ WorkerCount (fInfo f) → Counted (launch f).
Proof.
  intros Hw. split. simpl.
  rewrite filter_replicate_length by done. unfold capacity. lia.
Qed.

Lemma stepProduce_frame (f : Flow) (st st' : State) :
  stepProduce f st = Some st' →
  consumers st' = consumers st ∧ wait st' = wait st ∧ main st' = main st
  ∧ interrupt st' = interrupt st ∧ store (shared st') = store (shared st)
  ∧ ∃ evs, trace (shared st') = trace (shared st) ++ evs
           ∧ Forall (λ e, fromProducer e) evs.
Proof.
  destruct (producer st) as [|batch final| |] eqn:Hp.
  - intros (p & rest & _ & ->)%stepProduce_Producing; [|done]. simpl.
    repeat split. eexists. split; [done|].
    eapply Forall_impl; [apply produce_events|]. by intros e [? _].
  - unfold stepProduce. rewrite Hp.
    destruct (_ <? _)%nat; [|done]. intros [= <-]. simpl.
    repeat split. eexists. split; [done|]. destruct final; repeat constructor.
  - unfold stepProduce. by rewrite Hp.
  - unfold stepProduce. by rewrite Hp.
Qed.

Lemma Counted_step (f : Flow) (a : Action) (st st' : State) :
  Counted st → step f a st = Some st' → Counted st'.
Proof.
  intros [Hw] [_ Hstep]%step_alive.
  destruct a as [|i| |].
  - apply stepProduce_frame in Hstep as (Hc & Hw' & _). split. congruence.
  - apply stepConsume_inv in Hstep
      as [(provide & Hi & _ & ->)|[(worker & batch & rest & Hi & Hc & ->)
                                  |(worker & Hi & _ & _ & ->)]].
    + split. simpl. rewrite Hw. f_equal.
      pose proof (filter_insert_length blocking _ _ _
                    (match provide i with
                     | inl worker => Ranging worker
                     | inr _ => Returned
                     end) Hi) as Hf.
      simpl in Hf. destruct (provide i); simpl in Hf; lia.
    + destruct (consume _ _ _ _ _).2 as [why|]; split; simpl; [|done].
      pose proof (filter_insert_length blocking _ _ _ (Exited why) Hi) as Hf.
      simpl in Hf. lia.
    + split. simpl.
      pose proof (filter_insert_length blocking _ _ _
                    (Exited ChannelDrained) Hi) as Hf.
      simpl in Hf. lia.
  - apply stepWait_inv in Hstep as (_ & _ & ->). by split.
  - injection Hstep as <-. by split.
Qed.

Lemma Stuck_step (f : Flow) provide e (i : nat) (a : Action) (st st' : State) :
  WorkerProvider f = Some provide → provide i = inr e →
  Stuck i st → step f a st = Some st' → Stuck i st'.
Proof.
  intros Hwp Hpi [Hc Hi Hm Ht] Hstep.
  pose proof (Counted_step f a st st' Hc Hstep) as Hc'.
  apply step_alive in Hstep as [_ Hstep].
  destruct a as [|j| |].
  - apply stepProduce_frame in Hstep
      as (Hcs & _ & Hm' & _ & _ & evs & Htr & Hev).
    split; [done|congruence|congruence|].
    rewrite Htr. intros [Hin|Hin]%elem_of_app; [done|].
    rewrite Forall_forall in Hev. by apply Hev in Hin.
  - assert (main st' = main st
            ∧ ∃ evs, trace (shared st') = trace (shared st) ++ evs
                     ∧ Forall (λ e, fromConsumer e) evs) as (Hm' & evs & Htr & Hev).
    { apply stepConsume_inv in Hstep
        as [(? & _ & _ & ->)|[(worker & batch & rest & _ & _ & ->)
                             |(? & _ & _ & _ & ->)]].
      - split; [done|]. exists []. by rewrite app_nil_r.
      - destruct (consume_trace f worker (interrupt st) batch (shared st))
          as (evs & Htr & Hev & _).
        destruct (consume _ _ _ _ _).2; (split; [done|]); by exists evs.
      - split; [done|]. exists []. by rewrite app_nil_r. }
    split; [done| |congruence|].
    + destruct (decide (j = i)) as [->|Hne].
      * apply stepConsume_inv in Hstep
          as [(provide' & Hs & Hwp' & ->)|[(worker & ? & ? & Hs & _)
                                          |(worker & Hs & _)]].
        -- simpl. rewrite list_lookup_insert_eq
             by (by eapply lookup_lt_Some).
           assert (provide' = provide) as -> by congruence.
           rewrite Hpi. by right.
        -- destruct Hi; congruence.
        -- destruct Hi; congruence.
      * assert (consumers st' !! i = consumers st !! i) as ->; [|done].
        apply stepConsume_inv in Hstep
          as [(? & _ & _ & ->)|[(worker & batch & rest & _ & _ & ->)
                               |(? & _ & _ & _ & ->)]]; simpl.
        -- by rewrite list_lookup_insert_ne.
        -- destruct (consume _ _ _ _ _).2; simpl; [|done].
           by rewrite list_lookup_insert_ne.
        -- by rewrite list_lookup_insert_ne.
    + rewrite Htr. intros [Hin|Hin]%elem_of_app; [done|].
      rewrite Forall_forall in Hev. by apply Hev in Hin.
  - apply stepWait_inv in Hstep as (_ & Hw & _).
    destruct Hc as [Hc]. rewrite Hw in Hc.
    assert (1 ≤ length (List.filter blocking (consumers st)))%nat; [|lia].
    destruct Hi as [Hi|Hi]; by eapply filter_lookup_pos.
  - injection Hstep as <-. by split.
Qed.

(** C2, on the code: a consumer whose [WorkerProvider.Provide()] fails
    returns without calling [wait.Done()], so the WaitGroup counter never
    reaches zero: in every state [Flow.Start] can reach, the caller is still
    at [wait.Wait()], that step is not enabled, and [FlowWillEndFunc] has not
    been called. *)
Theorem construction_error_blocks_Start (f f' : Flow) (verified : bool)
    (st : State) (provide : WorkerProviderT) (i : nat) (e : CodeError) :
  Reaches f verified f' st →
  WorkerProvider f = Some provide →
  provide i = inr e →
  (i < capacity f')%nat →
  main st = Waiting
  ∧ 1 ≤ wait st
  ∧ step f' Wait st = None
  ∧ CallFlowWillEnd ∉ trace (shared st).
Proof.
  intros Hr Hwp Hpi Hi.
  assert (Flow_Check f = (f', None)) as Hc.
  { destruct Hr as (? & Hs & _). by apply Start_Launched in Hs as [? _]. }
  apply Flow_Check_ok in Hc as (Hw & _ & _ & Hwp' & _).
  assert (Stuck i st) as [[Hcount] Hcons Hm Ht].
  { eapply (Reaches_invariant f f'); [| |exact Hr].
    - intros _. split.
      + apply Counted_launch. lia.
      + left. simpl. by rewrite lookup_replicate_2.
      + done.
      + simpl. destruct (notNil _); [|by intros ?%elem_of_nil].
        intros [?|?%elem_of_nil]%elem_of_cons; done.
    - intros _ a s s'. eapply Stuck_step; [|exact Hpi]. congruence. }
  assert (1 ≤ wait st) as Hpos.
  { rewrite Hcount.
    assert (1 ≤ length (List.filter blocking (consumers st)))%nat; [|lia].
    destruct Hcons; by eapply filter_lookup_pos. }
  repeat split; [done|done| |done].
  unfold step, stepWait. destruct (producer st); try done;
    rewrite Hm; by destruct (Z.eqb_spec (wait st) 0); [lia|].
Qed.

(** One consumer whose worker cannot be built: the producer finishes, the
    caller of [Start] stays at [wait.Wait()]. *)
Lemma construction_error_sample :
  let st := finalState orphaned orphanedSchedule in
  consumers st = [Returned] ∧ producer st = Finished
  ∧ main st = Waiting ∧ 1 ≤ wait st ∧ step orphaned Wait st = None
  ∧ CallFlowWillEnd ∉ trace (shared st).
Proof.
  split; [reflexivity|]. split; [reflexivity|].
  refine (construction_error_blocks_Start orphaned orphaned true
            (finalState orphaned orphanedSchedule) (λ _, inr boom) 0%nat boom
            _ eq_refl eq_refl _).
  - exists orphanedSchedule. split; reflexivity.
  - vm_compute. lia.
Defined.

(** The sibling path: with a worker built, the consumer reaches
    [wait.Done()], [wait.Wait()] returns and [FlowWillEndFunc] is called. *)
Lemma Start_returns_sample :
  let st := finalState happy happySchedule in
  run happy happySchedule (launch happy) = Some st
  ∧ main st = Ended ∧ wait st = 0
  ∧ last (trace (shared st)) = Some CallFlowWillEnd.
Proof. vm_compute. repeat split. Qed.

(** ** Coverage *)

Lemma subject_payload (w : WorkInfo) :
  is_Some (Work_ w) → Some w ≫= (λ w, Work_ w ≫= λ _, Some w) = Some w.
Proof. intros [payload Hw]. simpl. by rewrite Hw. Qed.

Lemma payload_inv (o : option WorkInfo) (w : WorkInfo) :
  o ≫= (λ w, Work_ w ≫= λ _, Some w) = Some w → o = Some w ∧ is_Some (Work_ w).
Proof.
  destruct o as [w'|]; simpl; [|done].
  destruct (Work_ w') eqn:Hw; simpl; [|done]. intros [= ->]. eauto.
Qed.

Lemma admission_subjects (f : Flow) store (w : WorkInfo) :
  is_Some (Work_ w) →
  omap subject (admission f store w).1
  = match (admission f store w).2 with Reject => [w] | _ => [] end.
Proof.
  intros Hw. pose proof (subject_payload w Hw) as Hs. simpl in Hs.
  stages; rewrite ?Hs; done.
Qed.

Lemma produce_covers (f : Flow) p rest workList store :
  Forall (λ w, is_Some (Work_ w)) (workList ++ emitted (p :: rest)) →
  let r := produce f p workList store in
  r.2 = Panicked
  ∨ (Forall (λ w, is_Some (Work_ w)) (held r.2 r.1.2 rest)
     ∧ omap subject r.1.1 ++ held r.2 r.1.2 rest
       ≡ₚ workList ++ emitted (p :: rest)).
Proof.
  intros Hall. simpl. unfold produce, flush. simpl in Hall.
  destruct (err p) as [e|] eqn:He.
  { assert (omap subject
              [if Code e =? ErrorCodeParamMissing
               then OnWorkSkip (workInfo p) None (Some e)
               else OnWorkFail (workInfo p) e]
            = option_list (workInfo p ≫= (λ w, Work_ w ≫= λ _, Some w)))
      as Hs.
    { destruct (Code e =? _); simpl;
        by destruct (workInfo p ≫= _). }
    right. destruct (workInfo p ≫= _) as [w|] eqn:Hw.
    - destruct (Code e =? _); simpl in *; rewrite Hw; simpl;
        (split; [|by rewrite Permutation_middle]);
        revert Hall; rewrite !Forall_app, Forall_cons; tauto.
    - destruct (Code e =? _); simpl in *; rewrite Hw; simpl; done. }
  destruct (workInfo p ≫= _) as [w|] eqn:Hw.
  - apply payload_inv in Hw as [_ Hw].
    pose proof (admission_subjects f store w Hw) as Hs.
    destruct (admission f store w) as [evs []]; simpl in *.
    + right.
      destruct (_ <=? _); simpl; rewrite Hs, <- ?app_assoc; simpl;
        (split; [|done]); revert Hall;
        rewrite !Forall_app, !Forall_cons, ?Forall_nil; tauto.
    + right. rewrite Hs. simpl.
      split; [|by rewrite Permutation_middle].
      revert Hall. rewrite !Forall_app, Forall_cons. tauto.
    + by left.
  - right. simpl in Hall.
    destruct (hasMore p); simpl in *.
    + done.
    + rewrite app_nil_r in Hall.
      destruct workList as [|w workList]; simpl; by rewrite ?app_nil_r.
Qed.

Lemma reported_subjects (f : Flow) workErr records (batch : list WorkInfo) :
  Forall (λ w, is_Some (Work_ w)) batch →
  rWorkInfo <$> records = Some <$> batch →
  omap subject ((fallback workErr <$> records) ≫= reported f) = batch.
Proof.
  intros Hall. revert records.
  induction Hall as [|w batch Hw _ IH]; intros [|r records]; try done.
  rewrite !fmap_cons. intros [= Hr Hrs].
  rewrite bind_cons, omap_app, IH by done.
  assert (rWorkInfo (fallback workErr r) = Some w) as Hf.
  { unfold fallback. by destruct (lacksOutcome r). }
  pose proof (subject_payload w Hw) as Hs. simpl in Hs.
  unfold reported. rewrite Hf.
  destruct (notNil (Overseer f)), (rErr (fallback workErr r)); simpl;
    by rewrite Hs.
Qed.

Lemma consume_never_drained (f : Flow) worker intr batch sh :
  (consume f worker intr batch sh).2 ≠ Some ChannelDrained.
Proof.
  unfold consume, settle. destruct intr; [done|].
  destruct (DoWork worker batch) as [records workErr].
  destruct (_ && notNil workErr); [done|].
  destruct (dispatch _ _ _ _ _) as [hit sh'].
  by match goal with |- context [if ?b then _ else _] => destruct b end.
Qed.

Lemma consume_covers (f : Flow) worker intr batch sh :
  honours worker →
  Forall (λ w, is_Some (Work_ w)) batch →
  (consume f worker intr batch sh).2 = None →
  omap subject (trace (consume f worker intr batch sh).1)
  = omap subject (trace sh) ++ batch.
Proof.
  intros Hh Hall Hn.
  destruct (consume_trace f worker intr batch sh) as (evs & Htr & _ & Hs).
  rewrite Htr, omap_app, Hs by done. f_equal.
  destruct (Hh batch) as [[Hr He]|Ha].
  - exfalso. revert Hn. unfold consume, settle. destruct intr; [done|].
    destruct (DoWork worker batch) as [records workErr]. simpl in *.
    subst records. by destruct workErr.
  - by apply reported_subjects.
Qed.

Lemma exited_stays (f : Flow) (a : Action) (st st' : State) i why :
  consumers st !! i = Some (Exited why) →
  step f a st = Some st' →
  consumers st' !! i = Some (Exited why).
Proof.
  intros Hi [_ Hstep]%step_alive.
  destruct a as [|j| |].
  - apply stepProduce_frame in Hstep as (-> & _). done.
  - assert (j ≠ i) as Hne.
    { intros ->. apply stepConsume_inv in Hstep
        as [(? & Hs & _)|[(? & ? & ? & Hs & _)|(? & Hs & _)]]; congruence. }
    apply stepConsume_inv in Hstep
      as [(? & _ & _ & ->)|[(worker & batch & rest & _ & _ & ->)
                           |(? & _ & _ & _ & ->)]]; simpl.
    + by rewrite list_lookup_insert_ne.
    + destruct (consume _ _ _ _ _).2; simpl; [|done].
      by rewrite list_lookup_insert_ne.
    + by rewrite list_lookup_insert_ne.
  - apply stepWait_inv in Hstep as (_ & _ & ->). done.
  - injection Hstep as <-. done.
Qed.

Lemma early_step (f : Flow) (a : Action) (st st' : State) :
  early st → step f a st = Some st' → early st'.
Proof.
  intros [Hp|(i & why & Hi & Hne)] Hstep.
  - apply step_alive in Hstep as [? _]. done.
  - right. exists i, why. split; [|done]. by eapply exited_stays.
Qed.

Lemma Covering_step (f : Flow) provide script (a : Action) (st st' : State) :
  WorkerProvider f = Some provide →
  (∀ i worker, provide i = inl worker → honours worker) →
  Covering f script st → step f a st = Some st' → Covering f script st'.
Proof.
  intros Hwp Hprov [Hcrew Hhon Hdr Hacc] Hstep.
  assert (early st'
          ∨ (Forall (λ w, is_Some (Work_ w)) (pending st)
             ∧ covered st ++ pending st ≡ₚ emitted script)) as Hacc'.
  { destruct Hacc; [left; by eapply early_step|by right]. }
  clear Hacc. apply step_alive in Hstep as [_ Hstep].
  destruct a as [|j| |].
  - (* the producer *)
    assert (∀ i, consumers st !! i ≠ Some (Exited ChannelDrained)) as Hnd.
    { intros i Hi. destruct (Hdr i Hi) as [Hfin _].
      unfold stepProduce in Hstep. by rewrite Hfin in Hstep. }
    destruct (producer st) as [|batch final| |] eqn:Hp.
    + apply stepProduce_Producing in Hstep as (p & rest & Hpr & ->); [|done].
      split; simpl; [done|done|by intros i ?%Hnd|].
      destruct Hacc' as [He|[Hall Hperm]]; [by left|].
      unfold pending in Hall, Hperm. rewrite Hp in Hall, Hperm.
      simpl in Hall, Hperm.
      assert (emitted (provider st) = emitted (p :: rest)) as Hem.
      { by destruct Hpr as [->|(-> & -> & ->)]. }
      rewrite Hem in Hall, Hperm.
      apply Forall_app in Hall as [Hall1 Hall2].
      destruct (produce_covers f p rest (workList st) (store (shared st))
                  Hall1) as [Hpan|[Hall' Hperm']].
      * left. by left.
      * right. unfold pending, covered. simpl. split.
        -- by apply Forall_app.
        -- rewrite omap_app, <- Hperm. unfold covered.
           rewrite <- !app_assoc. f_equiv. rewrite !app_assoc. by f_equiv.
    + unfold stepProduce in Hstep. rewrite Hp in Hstep.
      destruct (_ <? _)%nat; [|done]. injection Hstep as <-.
      split; simpl; [done|done|by intros i ?%Hnd|].
      destruct Hacc' as [He|[Hall Hperm]]; [by left|].
      unfold pending in Hall, Hperm. rewrite Hp in Hall, Hperm.
      right. unfold pending, covered. simpl.
      rewrite omap_app, concat_app. unfold covered in Hperm.
      destruct final; simpl in *; rewrite !app_nil_r.
      * split; [by rewrite Forall_app in *; tauto|].
        rewrite <- Hperm. f_equiv. apply Permutation_app_comm.
      * split.
        { revert Hall. rewrite !Forall_app. tauto. }
        rewrite <- Hperm. f_equiv.
        rewrite <- !app_assoc.
        rewrite (Permutation_app_comm batch). by rewrite <- !app_assoc.
    + unfold stepProduce in Hstep. by rewrite Hp in Hstep.
    + unfold stepProduce in Hstep. by rewrite Hp in Hstep.
  - (* a consumer *)
    apply stepConsume_inv in Hstep
      as [(provide' & Hi & Hwp' & ->)|[(worker & batch & rest & Hi & Hc & ->)
                                      |(worker & Hi & Hc & Hfin & ->)]].
    + assert (provide' = provide) as -> by congruence.
      split; simpl.
      * by rewrite length_insert.
      * intros i worker. destruct (decide (j = i)) as [->|Hne].
        -- rewrite list_lookup_insert_eq by (by eapply lookup_lt_Some).
           destruct (provide i) eqn:Hpi; [|done]. intros [= ->]. eauto.
        -- rewrite list_lookup_insert_ne by done. apply Hhon.
      * intros i. destruct (decide (j = i)) as [->|Hne].
        -- rewrite list_lookup_insert_eq by (by eapply lookup_lt_Some).
           by destruct (provide i).
        -- rewrite list_lookup_insert_ne by done. apply Hdr.
      * destruct Hacc' as [He|Hok]; [by left|by right].
    + pose proof (consume_never_drained f worker (interrupt st) batch
                    (shared st)) as Hnever.
      pose proof (consume_covers f worker (interrupt st) batch (shared st)
                    (Hhon _ _ Hi)) as Hcov.
      destruct (consume f worker (interrupt st) batch (shared st))
        as [sh [why|]]; simpl in *.
      * split; simpl.
        -- by rewrite length_insert.
        -- intros i w'. destruct (decide (j = i)) as [->|Hne].
           ++ by rewrite list_lookup_insert_eq by (by eapply lookup_lt_Some).
           ++ rewrite list_lookup_insert_ne by done. apply Hhon.
        -- intros i. destruct (decide (j = i)) as [->|Hne].
           ++ rewrite list_lookup_insert_eq by (by eapply lookup_lt_Some).
              congruence.
           ++ rewrite list_lookup_insert_ne by done.
              intros [_ ?]%Hdr. congruence.
        -- left. right. exists j, why. simpl.
           rewrite list_lookup_insert_eq by (by eapply lookup_lt_Some).
           split; [done|congruence].
      * split; simpl; [done|done| |].
        -- intros i [_ ?]%Hdr. congruence.
        -- destruct Hacc' as [He|[Hall Hperm]]; [by left|].
           right. unfold pending, covered in *. simpl in *.
           rewrite Hc in Hall, Hperm. simpl in Hall, Hperm.
           assert (Forall (λ w, is_Some (Work_ w)) batch) as Hb.
           { revert Hall. rewrite !Forall_app. tauto. }
           rewrite Hcov by done. split.
           ++ revert Hall. rewrite !Forall_app. tauto.
           ++ rewrite <- Hperm, <- !app_assoc. f_equiv.
              rewrite !app_assoc. f_equiv. apply Permutation_app_comm.
    + split; simpl.
      * by rewrite length_insert.
      * intros i w'. destruct (decide (j = i)) as [->|Hne].
        -- by rewrite list_lookup_insert_eq by (by eapply lookup_lt_Some).
        -- rewrite list_lookup_insert_ne by done. apply Hhon.
      * done.
      * destruct Hacc' as [He|Hok]; [by left|by right].
  - (* the caller at wait.Wait() *)
    apply stepWait_inv in Hstep as (_ & _ & ->).
    split; simpl; [done|done|done|].
    destruct Hacc' as [He|[Hall Hperm]]; [by left|].
    right. unfold pending, covered in *. simpl. split; [done|].
    rewrite omap_app.
    assert (omap subject (if notNil (FlowWillEndFunc (EventListener f))
                          then [CallFlowWillEnd] else []) = []) as ->
      by (by destruct (notNil _)).
    by rewrite app_nil_r.
  - injection Hstep as <-.
    split; simpl; [done|done|done|].
    destruct Hacc' as [He|Hok]; [by left|by right].
Qed.

Lemma emitted_payload (script : list Provided) :
  Forall (λ w, is_Some (Work_ w)) (emitted script).
Proof.
  induction script as [|p script IH]; simpl; [constructor|].
  destruct (workInfo p ≫= _) as [w|] eqn:Hw.
  - apply payload_inv in Hw as [_ Hw]. by constructor.
  - destruct (notNil (err p) || hasMore p); [done|constructor].
Qed.

Lemma Covering_launch (f : Flow) :
  Covering f (default [] (WorkProvider f)) (launch f).
Proof.
  split; simpl.
  - by rewrite length_replicate.
  - intros i worker [? _]%lookup_replicate. done.
  - intros i [? _]%lookup_replicate. done.
  - right. unfold pending, covered. simpl. rewrite app_nil_r.
    assert (omap subject (if notNil (FlowWillStartFunc (EventListener f))
                          then [CallFlowWillStart] else []) = []) as ->
      by (by destruct (notNil _)).
    split; [apply emitted_payload|done].
Qed.

Lemma batch_failure_is_silent (f : Flow) worker batch sh :
  (DoWork worker batch).1 = [] → (DoWork worker batch).2 ≠ None →
  (consume f worker false batch sh).2 = Some BatchFailed
  ∧ omap subject (trace (consume f worker false batch sh).1)
    = omap subject (trace sh).
Proof.
  intros Hr He. unfold consume, settle.
  destruct (DoWork worker batch) as [records [e|]]; simpl in *; [|done].
  subst records. simpl. split; [done|].
  destruct (Limit f); simpl; rewrite ?omap_app; simpl; by rewrite ?app_nil_r.
Qed.

(** C1, amended: take a run of [Flow.Start] with workers that keep the
    contract of [DoWork] (no records with a batch error, or records aligned
    with the batch) in which every consumer left its loop because the
    channel was closed and drained, none on an interrupt, on a failed batch
    or on [StopWhenWorkError].  Then the producer has ended, the channel is
    empty, and the works with a payload that the provider handed out are,
    up to order, the subjects of the terminal events: each got exactly one
    of [OnWorkSuccess], [OnWorkFail], [OnWorkSkip].  A batch for which
    [DoWork] returns no records and a batch error gets no terminal event at
    all: the consumer leaves its loop. *)
Theorem coverage (f f' : Flow) (verified : bool) (st : State)
    (provide : WorkerProviderT) :
  Reaches f verified f' st →
  WorkerProvider f = Some provide →
  (∀ i worker, provide i = inl worker → honours worker) →
  Forall (λ c, c = Exited ChannelDrained) (consumers st) →
  producer st = Finished
  ∧ workChan st = []
  ∧ omap subject (trace (shared st)) ≡ₚ emitted (default [] (WorkProvider f))
  ∧ ∀ worker batch sh,
      (DoWork worker batch).1 = [] → (DoWork worker batch).2 ≠ None →
      (consume f' worker false batch sh).2 = Some BatchFailed
      ∧ omap subject (trace (consume f' worker false batch sh).1)
        = omap subject (trace sh).
Proof.
  intros Hr Hwp Hprov Hall.
  assert (Flow_Check f = (f', None)) as Hc.
  { destruct Hr as (? & Hs & _). by apply Start_Launched in Hs as [? _]. }
  apply Flow_Check_ok in Hc as (Hw & _ & Hpr & Hwp' & _).
  assert (Covering f' (default [] (WorkProvider f')) st)
    as [Hcrew _ Hdr Hacc].
  { eapply (Reaches_invariant f f'); [| |exact Hr].
    - intros _. apply Covering_launch.
    - intros _ a s s'. eapply Covering_step; [|exact Hprov]. congruence. }
  rewrite Hpr in Hacc.
  assert (consumers st !! 0%nat = Some (Exited ChannelDrained)) as H0.
  { destruct (consumers st) as [|c cs] eqn:Hcs.
    - simpl in Hcrew. unfold capacity in Hcrew. lia.
    - apply Forall_cons in Hall as [-> _]. done. }
  destruct (Hdr _ H0) as [Hfin Hch].
  split; [done|]. split; [done|]. split; [|apply batch_failure_is_silent].
  destruct Hacc as [[Hp|(i & why & Hi & Hne)]|[_ Hperm]].
  - congruence.
  - rewrite Forall_lookup in Hall. specialize (Hall _ _ Hi). congruence.
  - unfold pending, covered in Hperm. rewrite Hfin, Hch in Hperm.
    simpl in Hperm. by rewrite app_nil_r in Hperm.
Qed.

Lemma diligent_honours : honours diligent.
Proof.
  intros batch. right. simpl.
  induction batch as [|w batch IH]; [done|]. rewrite !fmap_cons. by f_equal.
Qed.

(** Three works, batches of two, one consumer, all succeed: each work has
    its one terminal event. *)
Lemma coverage_sample :
  omap subject (trace (shared (finalState happy happySchedule)))
  ≡ₚ [work "a"; work "b"; work "c"].
Proof.
  refine (proj1 (proj2 (proj2
    (coverage happy happy true (finalState happy happySchedule)
       (λ _, inl diligent) _ eq_refl _ _)))).
  - exists happySchedule. split; reflexivity.
  - intros i worker [= <-]. apply diligent_honours.
  - vm_compute. repeat constructor.
Defined.

(** C1, as stated, fails.  With a worker whose [DoWork] returns no records
    and a batch error, [Flow.Start] runs to its end with the interrupt flag
    down, and the two works the provider handed out get no terminal event.
    The same happens to the works left behind by [StopWhenWorkError] (here
    "a" fails, the consumer leaves, and "b" and "c" get no event) and to
    the works of a batch that a worker answers with neither records nor an
    error. *)
Lemma coverage_fails :
  let st := finalState unhappy unhappySchedule in
  let st' := finalState hasty hastySchedule in
  let st'' := finalState neglected neglectedSchedule in
  (Start unhappy true = Launched unhappy (launch unhappy)
   ∧ run unhappy unhappySchedule (launch unhappy) = Some st
   ∧ main st = Ended ∧ interrupt st = false ∧ producer st = Finished
   ∧ consumers st = [Exited BatchFailed]
   ∧ emitted twoWorks = [work "a"; work "b"]
   ∧ omap subject (trace (shared st)) = [])
  ∧ (Start hasty true = Launched hasty (launch hasty)
     ∧ run hasty hastySchedule (launch hasty) = Some st'
     ∧ main st' = Ended ∧ interrupt st' = false
     ∧ consumers st' = [Exited StoppedOnError]
     ∧ emitted threeWorks = [work "a"; work "b"; work "c"]
     ∧ omap subject (trace (shared st')) = [work "a"])
  ∧ (Start neglected true = Launched neglected (launch neglected)
     ∧ run neglected neglectedSchedule (launch neglected) = Some st''
     ∧ main st'' = Ended ∧ interrupt st'' = false ∧ producer st'' = Finished
     ∧ consumers st'' = [Exited ChannelDrained]
     ∧ emitted twoWorks = [work "a"; work "b"]
     ∧ omap subject (trace (shared st'')) = []).
Proof. vm_compute. repeat split. Qed.

(** * Further properties of the engine *)

(** ** Starting a flow *)

Lemma Flow_Check_error (f : Flow) :
  notNil (WorkProvider f) && notNil (WorkerProvider f) = false →
  ∃ e, (Flow_Check f).2 = Some e.
Proof.
  unfold Flow_Check, Flow_Info_Check, Info_Check. simpl.
  destruct (WorkProvider f); [|by eauto].
  destruct (WorkerProvider f); [done|by eauto].
Qed.

(** [Flow.Start] launches its goroutines exactly when both providers are
    set, the flow is forced or the user's code verification passed, and
    [FlowWillStartFunc] is nil or returns nil; it then runs the flow as
    [Flow.Check] repaired it.  Otherwise it returns at once: no work is
    pulled, no worker is built, and the only listener hook that may have
    been called is [FlowWillStartFunc], and only if the configuration and
    the verification went through. *)
Theorem Start_launches_when_ready (f : Flow) (verified : bool) :
  let ready :=
    notNil (WorkProvider f) && notNil (WorkerProvider f)
    && (Force (fInfo f) || verified) in
  match Start f verified with
  | Launched f' st =>
    ready = true
    ∧ (∀ e, FlowWillStartFunc (EventListener f) ≠ Some (Some e))
    ∧ Flow_Check f = (f', None) ∧ st = launch f'
    ∧ trace (shared st)
      = (if notNil (FlowWillStartFunc (EventListener f))
         then [CallFlowWillStart] else [])
  | Aborted evs =>
    if ready
    then (∃ e, FlowWillStartFunc (EventListener f) = Some (Some e))
         ∧ evs = [CallFlowWillStart]
    else evs = []
  end.
Proof.
  simpl. unfold Start.
  destruct (Flow_Check f) as [f' [e|]] eqn:Hc.
  - unfold Flow_Check, Flow_Info_Check, Info_Check in Hc. simpl in Hc.
    destruct (WorkProvider f); [|done].
    destruct (WorkerProvider f); [|done]. done.
  - pose proof (Flow_Check_ok f f' Hc)
      as (_ & _ & _ & _ & [wp Hwp] & [wk Hwk] & _ & Hl & _).
    assert (Force (fInfo f') = Force (fInfo f)) as HF.
    { revert Hc. unfold Flow_Check, Flow_Info_Check, Info_Check. simpl.
      rewrite Hwp, Hwk.
      destruct (WorkerCount (fInfo f) <? 1), (DoWorkInfoListMaxCount f <? 1);
        by intros [= <-]. }
    rewrite Hwp, Hwk, HF, Hl. simpl.
    destruct (Force (fInfo f)), verified; simpl; try done;
      destruct (FlowWillStartFunc (EventListener f)) as [[e|]|] eqn:Hh;
      simpl; rewrite ?Hl, ?Hh; simpl; eauto; repeat split; done.
Qed.

(** [Flow.Check] only ever raises the two numbers to 1, leaves every other
    setting alone, and a flow it accepted is a fixed point: checking it
    again changes nothing. *)
Theorem Flow_Check_idempotent (f f' : Flow) :
  Flow_Check f = (f', None) →
  Flow_Check f' = (f', None)
  ∧ WorkerCount (fInfo f') = Z.max 1 (WorkerCount (fInfo f))
  ∧ DoWorkInfoListMaxCount f' = Z.max 1 (DoWorkInfoListMaxCount f)
  ∧ Force (fInfo f') = Force (fInfo f)
  ∧ StopWhenWorkError (fInfo f') = StopWhenWorkError (fInfo f)
  ∧ workErrorHappened f' = workErrorHappened f.
Proof.
  destruct f as [[force n stop] wp wk m lim el ov sk rd flag].
  unfold Flow_Check, Flow_Info_Check, Info_Check. simpl.
  destruct wp; [|done]. destruct wk; [|done].
  destruct (Z.ltb_spec n 1), (Z.ltb_spec m 1); intros [= <-]; simpl.
  all: repeat match goal with
              | |- context [?a <? 1] =>
                destruct (Z.ltb_spec a 1); [lia|]
              end.
  all: repeat split; simpl; lia.
Qed.

(** The zero-valued configuration is repaired to one worker and batches of
    one, and stays there. *)
Lemma Flow_Check_idempotent_sample :
  Flow_Check (Flow_Check unsized).1 = ((Flow_Check unsized).1, None)
  ∧ WorkerCount (fInfo (Flow_Check unsized).1) = 1
  ∧ DoWorkInfoListMaxCount (Flow_Check unsized).1 = 1.
Proof.
  pose proof (Flow_Check_idempotent unsized (Flow_Check unsized).1 eq_refl)
    as (H1 & H2 & H3 & _).
  exact (conj H1 (conj H2 H3)).
Defined.

(** ** Steps, seen from outside *)

Lemma stepProduce_inv (f : Flow) (st st' : State) :
  stepProduce f st = Some st' →
  (∃ p rest,
      producer st = Producing
      ∧ (provider st = p :: rest ∨ provider st = [] ∧ p = exhausted ∧ rest = [])
      ∧ st' = {| provider := rest;
                 workList := (produce f p (workList st) (store (shared st))).1.2;
                 producer := (produce f p (workList st) (store (shared st))).2;
                 workChan := workChan st; consumers := consumers st;
                 wait := wait st; interrupt := interrupt st; main := main st;
                 shared := emit (produce f p (workList st)
                                   (store (shared st))).1.1 (shared st) |})
  ∨ (∃ batch final,
        producer st = Sending batch final
        ∧ (length (workChan st) < capacity f)%nat
        ∧ st' = {| provider := provider st; workList := workList st;
                   producer := if final then Finished else Producing;
                   workChan := workChan st ++ [batch];
                   consumers := consumers st;
                   wait := wait st; interrupt := interrupt st; main := main st;
                   shared := emit (ChanSend batch ::
                                   if final then [ChanClose] else [])
                                  (shared st) |}).
Proof.
  destruct (producer st) as [|batch final| |] eqn:Hp.
  - intros (p & rest & Hpr & ->)%stepProduce_Producing; [|done].
    left. by exists p, rest.
  - unfold stepProduce. rewrite Hp.
    destruct (Nat.ltb_spec (length (workChan st)) (capacity f)); [|done].
    intros [= <-]. right. by exists batch, final.
  - unfold stepProduce. by rewrite Hp.
  - unfold stepProduce. by rewrite Hp.
Qed.

(** What a step adds to the trace, and what it leaves alone. *)
Lemma step_trace (f : Flow) (a : Action) (st st' : State) :
  step f a st = Some st' →
  ∃ evs,
    trace (shared st') = trace (shared st) ++ evs
    ∧ match a with
      | Produce =>
        Forall (λ e, fromProducer e) evs
        ∧ consumers st' = consumers st ∧ wait st' = wait st
        ∧ main st' = main st ∧ interrupt st' = interrupt st
        ∧ store (shared st') = store (shared st)
        ∧ failed (shared st') = failed (shared st)
      | Consume _ =>
        Forall (λ e, fromConsumer e) evs
        ∧ provider st' = provider st ∧ workList st' = workList st
        ∧ producer st' = producer st
        ∧ main st' = main st ∧ interrupt st' = interrupt st
      | Wait =>
        evs = (if notNil (FlowWillEndFunc (EventListener f))
               then [CallFlowWillEnd] else [])
        ∧ main st = Waiting ∧ main st' = Ended ∧ wait st = 0
        ∧ provider st' = provider st ∧ workList st' = workList st
        ∧ producer st' = producer st ∧ workChan st' = workChan st
        ∧ consumers st' = consumers st ∧ wait st' = wait st
        ∧ interrupt st' = interrupt st
        ∧ store (shared st') = store (shared st)
        ∧ failed (shared st') = failed (shared st)
      | Interrupt =>
        evs = [] ∧ interrupt st' = true
        ∧ provider st' = provider st ∧ workList st' = workList st
        ∧ producer st' = producer st ∧ workChan st' = workChan st
        ∧ consumers st' = consumers st ∧ wait st' = wait st
        ∧ main st' = main st ∧ shared st' = shared st
      end.
Proof.
  intros [_ Hstep]%step_alive. destruct a as [|i| |].
  - apply stepProduce_inv in Hstep
      as [(p & rest & _ & _ & ->)|(batch & final & _ & _ & ->)]; simpl.
    + eexists. split; [done|]. split; [|done].
      eapply Forall_impl; [apply produce_events|]. by intros e [? _].
    + eexists. split; [done|]. split; [|done].
      destruct final; repeat constructor.
  - apply stepConsume_inv in Hstep
      as [(? & _ & _ & ->)|[(worker & batch & rest & _ & _ & ->)
                           |(? & _ & _ & _ & ->)]].
    + exists []. by rewrite app_nil_r.
    + destruct (consume_trace f worker (interrupt st) batch (shared st))
        as (evs & Htr & Hev & _).
      exists evs. by destruct (consume _ _ _ _ _).2.
    + exists []. by rewrite app_nil_r.
  - apply stepWait_inv in Hstep as (Hm & Hw & ->). eexists. by split.
  - injection Hstep as <-. exists []. by rewrite app_nil_r.
Qed.

(** ** The channel *)

(** The queue of the channel never holds more than [WorkerCount] batches:
    the producer waits for room. *)
Theorem channel_is_bounded (f f' : Flow) (verified : bool) (st : State) :
  Reaches f verified f' st →
  (length (workChan st) ≤ capacity f')%nat
  ∧ Z.of_nat (length (workChan st)) ≤ WorkerCount (fInfo f').
Proof.
  intros Hr.
  assert (1 ≤ WorkerCount (fInfo f')) as Hw.
  { destruct Hr as (? & Hs & _). apply Start_Launched in Hs as [Hc _].
    apply Flow_Check_ok in Hc. tauto. }
  assert (length (workChan st) ≤ capacity f')%nat as Hb.
  { apply (Reaches_invariant f f' verified
             (λ s, (length (workChan s) ≤ capacity f')%nat)); [| |exact Hr].
    - intros _. apply Nat.le_0_l.
    - intros _ a s s' Hs [_ Hstep]%step_alive. destruct a as [|i| |].
      + apply stepProduce_inv in Hstep
          as [(p & rest & _ & _ & ->)|(batch & final & _ & Hroom & ->)];
          cbn [workChan]; [done|]. rewrite length_app. cbn [length]. lia.
      + apply stepConsume_inv in Hstep
          as [(? & _ & _ & ->)|[(worker & batch & rest & _ & Hc & ->)
                               |(? & _ & _ & _ & ->)]]; simpl; [done| |done].
        rewrite Hc in Hs. simpl in Hs.
        destruct (consume _ _ _ _ _).2; simpl; lia.
      + apply stepWait_inv in Hstep as (_ & _ & ->). done.
      + injection Hstep as <-. done. }
  split; [done|]. unfold capacity in Hb. lia.
Qed.

Lemma channel_is_bounded_sample :
  (length (workChan (finalState hasty hastySchedule)) ≤ capacity hasty)%nat
  ∧ Z.of_nat (length (workChan (finalState hasty hastySchedule)))
    ≤ WorkerCount (fInfo hasty).
Proof.
  refine (channel_is_bounded hasty hasty true _ _).
  exists hastySchedule. split; reflexivity.
Defined.

(** ** Shapes of the events of one step *)

Lemma producer_events_silent (evs : list Event) :
  Forall (λ e, fromProducer e ∧ ∀ b, e ≠ ChanSend b) evs →
  omap sentBatch evs = [] ∧ omap workedBatch evs = []
  ∧ omap recordedBy evs = [] ∧ List.filter isWillEnd evs = [].
Proof.
  induction 1 as [|e evs [He Hn] _ (IH1 & IH2 & IH3 & IH4)]; [done|].
  destruct e; simpl in *; try done. by destruct (Hn batch).
Qed.

Lemma consumer_events_silent (evs : list Event) :
  Forall (λ e, fromConsumer e) evs →
  omap sentBatch evs = [] ∧ omap askedListener evs = []
  ∧ List.filter isWillEnd evs = [].
Proof.
  induction 1 as [|e evs He _ (IH1 & IH2 & IH3)]; [done|].
  destruct e; simpl in *; done.
Qed.

Lemma limiter_calls_silent (evs : list Event) :
  Forall (λ e, isLimiterCall e) evs →
  omap workedBatch evs = [] ∧ omap recordedBy evs = []
  ∧ omap subject evs = [].
Proof.
  induction 1 as [|e evs He _ (IH1 & IH2 & IH3)]; [done|].
  destruct e; simpl in *; done.
Qed.

Lemma reported_recorded (f : Flow) (rs : list WorkRecord) :
  omap recordedBy (rs ≫= reported f) = (if notNil (Overseer f) then rs else [])
  ∧ omap workedBatch (rs ≫= reported f) = [].
Proof.
  induction rs as [|r rs [IH1 IH2]]; [by destruct (notNil _)|].
  rewrite bind_cons, !omap_app, IH1, IH2. unfold reported.
  destruct (notNil (Overseer f)), (rErr r); done.
Qed.

Lemma dispatch_store (f : Flow) workErr records hit sh :
  store (dispatch f workErr records hit sh).2
  = (if notNil (Overseer f)
     then reverse (fallback workErr <$> records) else [])
    ++ store sh.
Proof.
  revert hit sh.
  induction records as [|r records IH]; intros hit sh; simpl.
  - by destruct (notNil _).
  - rewrite IH, resultHandler_store.
    destruct (notNil (Overseer f)); [|done].
    by rewrite reverse_cons, <- app_assoc.
Qed.

(** One pass through the consumer loop body with the interrupt flag down. *)
Lemma consume_shape (f : Flow) worker batch sh :
  let records := (DoWork worker batch).1 in
  let workErr := (DoWork worker batch).2 in
  let handled := fallback workErr <$> records in
  let pre := (if notNil (Limit f)
              then [CallAcquire (Z.of_nat (length batch))] else [])
             ++ [CallDoWork batch] in
  let sh' := (consume f worker false batch sh).1 in
  if (length records =? 0)%nat && notNil workErr
  then trace sh' = trace sh ++ pre ∧ store sh' = store sh
       ∧ failed sh' = failed sh
       ∧ (consume f worker false batch sh).2 = Some BatchFailed
  else ∃ post,
      trace sh' = trace sh ++ pre ++ (handled ≫= reported f) ++ post
      ∧ Forall (λ e, isLimiterCall e) post
      ∧ (Limit f = None → post = [])
      ∧ store sh'
        = (if notNil (Overseer f) then reverse handled else []) ++ store sh
      ∧ failed sh' = existsb (λ r, notNil (rErr r)) handled || failed sh
      ∧ (consume f worker false batch sh).2
        = if failed sh' && StopWhenWorkError (fInfo f)
          then Some StoppedOnError else None.
Proof.
  unfold consume. destruct (DoWork worker batch) as [records workErr].
  cbn [fst snd].
  set (sh0 := emit [CallDoWork batch] _).
  assert (trace sh0
          = trace sh
            ++ (if notNil (Limit f)
                then [CallAcquire (Z.of_nat (length batch))] else [])
            ++ [CallDoWork batch]
          ∧ store sh0 = store sh ∧ failed sh0 = failed sh) as (H0 & H1 & H2).
  { subst sh0. destruct (Limit f); simpl; by rewrite <- ?app_assoc. }
  clearbody sh0. unfold settle.
  destruct ((length records =? 0)%nat && notNil workErr); [done|].
  pose proof (dispatch_trace f workErr records 0 sh0) as Ht.
  pose proof (dispatch_store f workErr records 0 sh0) as Hs.
  pose proof (dispatch_failed f workErr records 0 sh0) as Hf.
  destruct (dispatch f workErr records 0 sh0) as [hit sh1].
  cbn [fst snd] in *. rewrite H0 in Ht. rewrite H1 in Hs. rewrite H2 in Hf.
  set (post := match Limit f with
               | Some _ =>
                 CallRelease (Z.of_nat (length batch))
                 :: (if 0 <? hit
                     then [CallAddLimitCount (-1 * hit);
                           CallSleep (Millisecond * 1500)]
                     else [])
               | None => []
               end).
  cbv zeta.
  set (sh2 := match Limit f with Some _ => _ | None => sh1 end).
  assert (trace sh2 = trace sh1 ++ post ∧ store sh2 = store sh1
          ∧ failed sh2 = failed sh1) as (T2 & S2 & F2).
  { subst sh2 post. destruct (Limit f); [|by rewrite app_nil_r].
    destruct (0 <? hit); simpl; by rewrite <- ?app_assoc. }
  assert (Forall (λ e, isLimiterCall e) post ∧ (Limit f = None → post = []))
    as [Hpost Hnone].
  { subst post. destruct (Limit f), (0 <? hit); repeat constructor; done. }
  clearbody sh2 post. exists post.
  destruct (failed sh2 && StopWhenWorkError (fInfo f)) eqn:Hstop;
    cbn [fst snd]; rewrite Hstop, T2, S2, F2, Ht, Hs, Hf, <- !app_assoc;
    done.
Qed.

(** ** The caller of [Start] *)

Lemma none_blocking (cs : list ConsumerStatus) :
  length (List.filter blocking cs) = 0%nat → Forall exited cs.
Proof.
  induction cs as [|c cs IH]; simpl; [constructor|].
  destruct c; simpl; try done. intros H. constructor; [by eexists|auto].
Qed.

Lemma Joined_launch (f : Flow) :
  0 ≤ WorkerCount (fInfo f) → Joined f (launch f).
Proof.
  intros Hw. split.
  - by apply Counted_launch.
  - simpl. by rewrite length_replicate.
  - done.
  - simpl. by destruct (notNil (FlowWillStartFunc _)).
Qed.

Lemma Joined_step (f : Flow) (a : Action) (st st' : State) :
  Joined f st → step f a st = Some st' → Joined f st'.
Proof.
  intros [Hc Hcrew He Hh] Hstep.
  pose proof (Counted_step f a st st' Hc Hstep) as Hc'.
  destruct (step_trace f a st st' Hstep) as (evs & Htr & Hshape).
  apply step_alive in Hstep as [_ Hstep].
  destruct a as [|i| |].
  - destruct Hshape as (Hev & Hcs & _ & Hm & _).
    split; [done|congruence|by rewrite Hm, Hcs|].
    rewrite Htr, List.filter_app, Hh, Hm.
    assert (List.filter isWillEnd evs = []) as ->; [|by rewrite app_nil_r].
    clear -Hev. induction Hev as [|e evs He _ IH]; [done|].
    by destruct e.
  - destruct Hshape as (Hev & _ & _ & _ & Hm & _).
    assert (main st = Waiting) as Hw.
    { destruct (main st) eqn:Hmain; [done|]. exfalso.
      specialize (He eq_refl). rewrite Forall_lookup in He.
      apply stepConsume_inv in Hstep
        as [(? & Hi & _)|[(? & ? & ? & Hi & _)|(? & Hi & _)]];
        destruct (He _ _ Hi) as [why ?]; done. }
    split; [done| |congruence|].
    + apply stepConsume_inv in Hstep
        as [(? & _ & _ & ->)|[(worker & batch & rest & _ & _ & ->)
                             |(? & _ & _ & _ & ->)]]; simpl;
        rewrite ?length_insert; try done.
      destruct (consume _ _ _ _ _).2; simpl; by rewrite ?length_insert.
    + rewrite Htr, List.filter_app, Hh, Hm.
      destruct (consumer_events_silent evs Hev) as (_ & _ & ->).
      by rewrite app_nil_r.
  - destruct Hshape as (-> & Hm & Hm' & Hw & _ & _ & _ & _ & Hcs & _).
    split; [done|congruence| |].
    + intros _. rewrite Hcs. apply none_blocking.
      destruct Hc as [Hc]. lia.
    + rewrite Htr, List.filter_app, Hh, Hm, Hm'. simpl.
      by destruct (notNil _).
  - destruct Hshape as (-> & _ & _ & _ & _ & _ & Hcs & _ & Hm & Hsh).
    split; [done|congruence|by rewrite Hm, Hcs|].
    by rewrite Hsh, Hm.
Qed.

(** The WaitGroup counter is the number of consumers that have not left
    their loop through [wait.Done()], so it stays between 0 and
    [WorkerCount]; [Start] has returned only if every consumer has left its
    loop, and [FlowWillEndFunc] is called exactly once, at that return, and
    not before. *)
Theorem Start_joins_consumers (f f' : Flow) (verified : bool) (st : State) :
  Reaches f verified f' st →
  wait st = Z.of_nat (length (List.filter blocking (consumers st)))
  ∧ 0 ≤ wait st ≤ WorkerCount (fInfo f')
  ∧ (main st = Ended → wait st = 0 ∧ Forall exited (consumers st))
  ∧ List.filter isWillEnd (trace (shared st))
    = (if ended (main st) && notNil (FlowWillEndFunc (EventListener f'))
       then [CallFlowWillEnd] else []).
Proof.
  intros Hr.
  assert (1 ≤ WorkerCount (fInfo f')) as Hw.
  { destruct Hr as (? & Hs & _). apply Start_Launched in Hs as [Hc _].
    apply Flow_Check_ok in Hc. tauto. }
  assert (Joined f' st) as [[Hc] Hcrew He Hh].
  { eapply (Reaches_invariant f f'); [| |exact Hr].
    - intros _. apply Joined_launch. lia.
    - intros _ a s s'. apply Joined_step. }
  split; [done|]. split; [|split; [|done]].
  - pose proof (List.filter_length_le blocking (consumers st)) as Hle.
    unfold capacity in Hcrew. lia.
  - intros Hm. split; [|by apply He].
    specialize (He Hm). rewrite Hc.
    assert (List.filter blocking (consumers st) = []) as ->; [|done].
    clear -He. induction He as [|c cs [why ->] _ IH]; done.
Qed.

Lemma Start_joins_consumers_sample :
  wait (finalState happy happySchedule) = 0
  ∧ Forall exited (consumers (finalState happy happySchedule)).
Proof.
  refine (proj1 (proj2 (proj2
    (Start_joins_consumers happy happy true
       (finalState happy happySchedule) _))) eq_refl).
  exists happySchedule. split; reflexivity.
Defined.

(** ** Order of delivery *)

(** One pass through the consumer loop body sends nothing and hands its
    batch to the worker, unless the interrupt flag is up. *)
Lemma consume_worked (f : Flow) worker intr batch sh :
  omap sentBatch (trace (consume f worker intr batch sh).1)
  = omap sentBatch (trace sh)
  ∧ omap workedBatch (trace (consume f worker intr batch sh).1)
    = omap workedBatch (trace sh) ++ (if intr then [] else [batch]).
Proof.
  destruct intr; [by rewrite app_nil_r|].
  pose proof (consume_shape f worker batch sh) as Hshape.
  cbv zeta in Hshape.
  assert (∃ tail,
             trace (consume f worker false batch sh).1
             = trace sh
               ++ ((if notNil (Limit f)
                    then [CallAcquire (Z.of_nat (length batch))]
                    else []) ++ [CallDoWork batch]) ++ tail
             ∧ omap workedBatch tail = [] ∧ omap sentBatch tail = [])
    as (tail & -> & Hw & Hs).
  { destruct (_ && _).
    - destruct Hshape as (-> & _). exists []. by rewrite app_nil_r.
    - destruct Hshape as (post & -> & Hpost & _).
      exists (((fallback (DoWork worker batch).2
                  <$> (DoWork worker batch).1) ≫= reported f) ++ post).
      split; [done|].
      destruct (limiter_calls_silent post Hpost) as (Hw1 & _).
      destruct (reported_recorded f
                  (fallback (DoWork worker batch).2
                     <$> (DoWork worker batch).1)) as [_ Hw2].
      split; [by rewrite !omap_app, Hw1, Hw2|].
      apply consumer_events_silent, Forall_app. split.
      + apply reported_events.
      + eapply Forall_impl; [exact Hpost|]. by intros []. }
  rewrite !omap_app, Hw, Hs, !app_nil_r.
  destruct (notNil (Limit f)); simpl; by rewrite ?app_nil_r.
Qed.

Lemma Queued_step (f : Flow) (a : Action) (st st' : State) :
  Queued st → step f a st = Some st' → Queued st'.
Proof.
  intros [Ho Hq] [_ Hstep]%step_alive.
  destruct a as [|i| |].
  - apply stepProduce_inv in Hstep
      as [(p & rest & _ & _ & ->)|(batch & final & _ & _ & ->)]; simpl.
    + destruct (producer_events_silent _
                  (produce_events f p (workList st) (store (shared st))))
        as (Hs & Hw & _).
      split; simpl; rewrite !omap_app, Hs, Hw, !app_nil_r; done.
    + assert (omap sentBatch (ChanSend batch
                              :: (if final then [ChanClose] else []))
              = [batch]
              ∧ omap workedBatch (ChanSend batch
                                  :: (if final then [ChanClose] else []))
                = []) as [Hs Hw] by (by destruct final).
      split; simpl; rewrite !omap_app, Hs, Hw, app_nil_r, app_assoc.
      * by apply submseteq_app.
      * intros Hi. by rewrite (Hq Hi).
  - apply stepConsume_inv in Hstep
      as [(? & _ & _ & ->)|[(worker & batch & rest & _ & Hc & ->)
                           |(? & _ & _ & _ & ->)]]; [by split| |by split].
    destruct (consume_worked f worker (interrupt st) batch (shared st))
      as [Hs Hw].
    rewrite Hc in Ho, Hq.
    assert (Queued (receive rest
                      (consume f worker (interrupt st) batch (shared st)).1
                      st)) as [Ho' Hq'].
    { split; cbn [receive shared workChan interrupt]; rewrite Hs, Hw.
      - destruct (interrupt st).
        + rewrite app_nil_r. etrans; [|exact Ho].
          apply submseteq_app; [done|]. by apply submseteq_cons.
        + by rewrite <- app_assoc.
      - intros Hi. rewrite Hi, <- app_assoc. by apply Hq. }
    destruct (consume _ _ _ _ _).2; by split.
  - apply stepWait_inv in Hstep as (_ & _ & ->).
    assert (omap sentBatch (if notNil (FlowWillEndFunc (EventListener f))
                            then [CallFlowWillEnd] else []) = []
            ∧ omap workedBatch (if notNil (FlowWillEndFunc (EventListener f))
                                then [CallFlowWillEnd] else []) = [])
      as [Hs Hw] by (by destruct (notNil _)).
    split; simpl; rewrite !omap_app, Hs, Hw, !app_nil_r; done.
  - injection Hstep as <-. by split.
Qed.

(** Every batch handed to [Worker.DoWork] is a batch the producer sent, and
    a sent batch is handed to a worker at most once, whatever the number of
    consumers and whether or not the interrupt flag was raised: the batches
    worked and those still queued are, with their multiplicities, among the
    batches sent.  With a single consumer and the flag down, the batches are
    moreover worked in the order the producer sent them. *)
Theorem batches_are_worked_at_most_once (f f' : Flow) (verified : bool)
    (st : State) :
  Reaches f verified f' st →
  omap workedBatch (trace (shared st)) ++ workChan st
  ⊆+ omap sentBatch (trace (shared st))
  ∧ (WorkerCount (fInfo f') = 1 → interrupt st = false →
     omap workedBatch (trace (shared st))
     `prefix_of` omap sentBatch (trace (shared st))).
Proof.
  intros Hr.
  assert (Queued st) as [Ho Hq].
  { eapply (Reaches_invariant f f'); [| |exact Hr].
    - intros _. split; simpl; by destruct (notNil _).
    - intros _ a s s'. apply Queued_step. }
  split; [done|]. intros _ Hi. exists (workChan st). by rewrite (Hq Hi).
Qed.

Lemma batches_are_worked_at_most_once_sample :
  [[work "a"; work "b"]; [work "c"]]
  ⊆+ omap sentBatch (trace (shared (finalState happy happySchedule)))
  ∧ [[work "a"; work "b"]; [work "c"]]
    `prefix_of` omap sentBatch (trace (shared (finalState happy happySchedule))).
Proof.
  pose proof (batches_are_worked_at_most_once happy happy true
                (finalState happy happySchedule)
                (ex_intro _ happySchedule (conj eq_refl eq_refl)))
    as [H1 H2].
  split; [exact H1|exact (H2 eq_refl eq_refl)].
Defined.

(** ** What the producer sends *)

Lemma accepted_app (f : Flow) (evs evs' : list Event) :
  accepted f (evs ++ evs') = accepted f evs ++ accepted f evs'.
Proof. unfold accepted. by rewrite omap_app, List.filter_app. Qed.

Lemma accepted_by_consumer (f : Flow) (evs : list Event) :
  Forall (λ e, fromConsumer e) evs → accepted f evs = [].
Proof.
  intros (_ & H & _)%consumer_events_silent. unfold accepted. by rewrite H.
Qed.

Lemma admission_accepted (f : Flow) store (w : WorkInfo) :
  accepted f (admission f store w).1
  = match (admission f store w).2 with Accept => [w] | _ => [] end.
Proof.
  unfold accepted. stages; try done;
    repeat match goal with
           | H : WillWork _ _ = _ |- _ => rewrite H; clear H
           end; done.
Qed.

(** What the producer holds after one pass, from its status and buffer. *)
Lemma produce_accepted (f : Flow) p workList store :
  let r := produce f p workList store in
  match r.2 with
  | Producing | Panicked => r.1.2
  | Sending batch false => batch ++ r.1.2
  | Sending batch true => batch
  | Finished => []
  end = workList ++ accepted f r.1.1.
Proof.
  simpl. unfold produce, flush.
  destruct (err p) as [e|].
  { destruct (Code e =? _); simpl; by rewrite app_nil_r. }
  destruct (workInfo p ≫= _) as [w|].
  - pose proof (admission_accepted f store w) as Ha.
    destruct (admission f store w) as [evs []]; simpl in *; rewrite ?Ha;
      rewrite ?app_nil_r; try done.
    destruct (_ <=? _); simpl; by rewrite Ha, ?app_nil_r.
  - destruct (negb (hasMore p)); simpl; [|by rewrite app_nil_r].
    destruct workList; simpl; by rewrite ?app_nil_r.
Qed.

Lemma Forall_removelast {A} (P : A → Prop) (l : list A) :
  Forall P l → Forall P (removelast l).
Proof.
  induction 1 as [|x l Hx Hl IH]; simpl; [constructor|].
  destruct l; [constructor|]. by constructor.
Qed.

Lemma Conserved_launch (f : Flow) :
  1 ≤ DoWorkInfoListMaxCount f → Conserved f (launch f).
Proof.
  intros Hm. split; simpl.
  - by apply Batched_launch.
  - by destruct (notNil _).
  - done.
  - intros _. destruct (notNil _); constructor.
  - destruct (notNil _); constructor.
Qed.

Lemma Conserved_step (f : Flow) (a : Action) (st st' : State) :
  Conserved f st → step f a st = Some st' → Conserved f st'.
Proof.
  intros [Hb Hc Hsf Hs Hl] Hstep.
  pose proof (Batched_step f a st st' Hb Hstep) as Hb'.
  destruct (step_trace f a st st' Hstep) as (evs & Htr & Hshape).
  apply step_alive in Hstep as [_ Hstep].
  destruct a as [|i| |].
  - clear evs Htr Hshape. apply stepProduce_inv in Hstep
      as [(p & rest & Hp & _ & ->)|(batch & final & Hp & _ & ->)].
    + destruct (producer_events_silent _
                  (produce_events f p (workList st) (store (shared st))))
        as (Hsent & _).
      pose proof (produce_accepted f p (workList st) (store (shared st)))
        as Hacc.
      pose proof (produce_sized f p (workList st) (store (shared st))
                    (buffer_below _ _ Hb)) as [_ Hsz].
      cbv zeta in Hacc, Hsz.
      unfold inHand in Hc. rewrite Hp in Hc.
      assert (Forall (isFull f) (omap sentBatch (trace (shared st)))) as Hfull
        by (apply Hs; congruence).
      split; [done| | | |]; unfold inHand;
        cbn [producer workList shared trace emit].
      * rewrite omap_app, Hsent, app_nil_r, accepted_app, <- Hc, <- app_assoc.
        f_equal. exact Hacc.
      * intros b Hsb. unfold isFull.
        destruct (Hsz _ _ Hsb) as [_ Hle].
        pose proof (buffer_below _ _ Hb) as Hlt.
        revert Hsb. unfold produce, flush.
        destruct (err p) as [e|]; [by destruct (Code e =? _)|].
        destruct (workInfo p ≫= _) as [w|].
        -- destruct (admission f _ w) as [evs []]; simpl; [|done..].
           destruct (Z.leb_spec (DoWorkInfoListMaxCount f)
                       (Z.of_nat (length (workList st ++ [w])))); [|done].
           intros [= <-]. rewrite length_app in *. cbn [length] in *. lia.
        -- destruct (negb (hasMore p)); [|done].
           by destruct (0 <? length (workList st))%nat.
      * intros _. by rewrite omap_app, Hsent, app_nil_r.
      * rewrite omap_app, Hsent, app_nil_r. by apply Forall_removelast.
    + unfold inHand in Hc. rewrite Hp in Hc.
      assert (Forall (isFull f) (omap sentBatch (trace (shared st)))) as Hfull
        by (apply Hs; congruence).
      assert (omap sentBatch (ChanSend batch ::
                              (if final then [ChanClose] else [])) = [batch]
              ∧ accepted f (ChanSend batch ::
                            (if final then [ChanClose] else [])) = [])
        as [Hsent Hacc] by (by destruct final).
      split; [done| | | |]; unfold inHand;
        cbn [producer workList shared trace emit];
        rewrite ?omap_app, ?accepted_app, ?Hsent, ?Hacc, ?app_nil_r.
      * rewrite <- Hc, concat_app. simpl. rewrite app_nil_r.
        destruct final; by rewrite <- ?app_assoc, ?app_nil_r.
      * by destruct final.
      * destruct final; [done|]. intros _. apply Forall_app. split; [done|].
        constructor; [by apply Hsf|constructor].
      * by rewrite removelast_last.
  - destruct Hshape as (Hev & _ & Hwl & Hp & _).
    destruct (consumer_events_silent evs Hev) as (Hsent & _).
    split; [done| | | |]; unfold inHand;
      rewrite ?Hp, ?Hwl, ?Htr, ?omap_app, ?accepted_app, ?Hsent,
        ?(accepted_by_consumer f evs Hev), ?app_nil_r; done.
  - destruct Hshape as (-> & _ & _ & _ & _ & Hwl & Hp & _).
    assert (omap sentBatch (if notNil (FlowWillEndFunc (EventListener f))
                            then [CallFlowWillEnd] else []) = []
            ∧ accepted f (if notNil (FlowWillEndFunc (EventListener f))
                          then [CallFlowWillEnd] else []) = [])
      as [Hsent Hacc] by (by destruct (notNil _)).
    split; [done| | | |]; unfold inHand;
      rewrite ?Hp, ?Hwl, ?Htr, ?omap_app, ?accepted_app, ?Hsent, ?Hacc,
        ?app_nil_r; done.
  - destruct Hshape as (-> & _ & _ & Hwl & Hp & _).
    split; [done| | | |]; unfold inHand;
      rewrite ?Hp, ?Hwl, ?Htr, ?app_nil_r; done.
Qed.

Lemma Reaches_Conserved (f f' : Flow) (verified : bool) (st : State) :
  Reaches f verified f' st → Conserved f' st.
Proof.
  intros Hr. eapply (Reaches_invariant f f'); [| |exact Hr].
  - intros Hc. apply Conserved_launch. apply Flow_Check_ok in Hc. tauto.
  - intros _ a s s'. apply Conserved_step.
Qed.

(** The works the producer has sent, is sending or holds in its buffer are,
    in this order, exactly the works [WillWork] let through, in the order
    the listener was asked: batching neither loses, duplicates nor reorders
    an accepted work.  Once the producer has ended, every accepted work has
    been sent. *)
Theorem batches_carry_the_accepted_works (f f' : Flow) (verified : bool)
    (st : State) :
  Reaches f verified f' st →
  concat (omap sentBatch (trace (shared st))) ++ inHand st
  = accepted f' (trace (shared st))
  ∧ (producer st = Finished →
     concat (omap sentBatch (trace (shared st)))
     = accepted f' (trace (shared st))).
Proof.
  intros [_ Hc _ _ _]%Reaches_Conserved. split; [done|].
  intros Hf. unfold inHand in Hc. rewrite Hf in Hc.
  by rewrite app_nil_r in Hc.
Qed.

Lemma batches_carry_the_accepted_works_sample :
  concat (omap sentBatch (trace (shared (finalState happy happySchedule))))
  = [work "a"; work "b"; work "c"].
Proof.
  exact (proj2 (batches_carry_the_accepted_works happy happy true
                  (finalState happy happySchedule)
                  (ex_intro _ happySchedule (conj eq_refl eq_refl)))
               eq_refl).
Defined.

(** Every batch the producer sends before the end of the provider's answers
    has exactly [DoWorkInfoListMaxCount] works; only the last batch of a
    flow, the one flushed when the provider is exhausted, may be shorter. *)
Theorem only_the_last_batch_is_short (f f' : Flow) (verified : bool)
    (st : State) :
  Reaches f verified f' st →
  Forall (isFull f') (removelast (omap sentBatch (trace (shared st))))
  ∧ (producer st ≠ Finished →
     Forall (isFull f') (omap sentBatch (trace (shared st))))
  ∧ (∀ b, producer st = Sending b false → isFull f' b).
Proof. intros [_ _ Hsf Hs Hl]%Reaches_Conserved. done. Qed.

Lemma only_the_last_batch_is_short_sample :
  Forall (isFull happy) [[work "a"; work "b"]].
Proof.
  exact (proj1 (only_the_last_batch_is_short happy happy true
                  (finalState happy happySchedule)
                  (ex_intro _ happySchedule (conj eq_refl eq_refl)))).
Defined.

(** ** What the overseer is told *)

Lemma processed_batch (records : list WorkRecord) (workErr : option CodeError) :
  ¬ (records = [] ∧ workErr ≠ None) →
  (length records =? 0)%nat && notNil workErr = false.
Proof.
  intros Hp. destruct records; [|done]. destruct workErr; [|done].
  exfalso. by apply Hp.
Qed.

Lemma reported_about (f : Flow) (rs : list WorkRecord) :
  List.filter aboutRecord (rs ≫= reported f) = rs ≫= reported f.
Proof.
  induction rs as [|r rs IH]; [done|].
  rewrite bind_cons, List.filter_app, IH. f_equal.
  unfold reported. destruct (notNil (Overseer f)), (rErr r); done.
Qed.

Lemma limiter_calls_about (evs : list Event) :
  Forall (λ e, isLimiterCall e) evs → List.filter aboutRecord evs = [].
Proof.
  induction 1 as [|e evs He _ IH]; [done|]. destruct e; simpl in *; done.
Qed.

(** In one pass through the consumer loop body, every record of a
    dispatched batch is handed to the overseer's [WorkDone], once, in the
    order of the worker's answer and as it stands after the fallback
    assignment, whether it failed or not, and each time before the listener
    is told the outcome of that record; without an overseer [WorkDone] is
    not called and the listener alone is told. *)
Theorem every_record_is_handed_to_the_overseer (f : Flow) (worker : Worker)
    (batch : list WorkInfo) (records : list WorkRecord)
    (workErr : option CodeError) (sh : Shared) :
  DoWork worker batch = (records, workErr) →
  ¬ (records = [] ∧ workErr ≠ None) →
  let handled := fallback workErr <$> records in
  let outcome r :=
    match rErr r with
    | Some e => OnWorkFail (rWorkInfo r) e
    | None => OnWorkSuccess (rWorkInfo r) (rResult r)
    end in
  ∃ evs,
    trace (consume f worker false batch sh).1 = trace sh ++ evs
    ∧ omap recordedBy evs = (if notNil (Overseer f) then handled else [])
    ∧ List.filter aboutRecord evs
      = handled ≫= (λ r, if notNil (Overseer f)
                         then [CallWorkDone r; outcome r] else [outcome r]).
Proof.
  intros Hw Hp handled outcome.
  pose proof (consume_shape f worker batch sh) as Hs.
  cbv zeta in Hs. rewrite Hw in Hs. cbn [fst snd] in Hs.
  rewrite (processed_batch _ _ Hp) in Hs.
  destruct Hs as (post & Htr & Hpost & _).
  fold handled in Htr.
  set (pre := (if notNil (Limit f) then _ else []) ++ [CallDoWork batch])
    in Htr.
  assert (omap recordedBy pre = [] ∧ List.filter aboutRecord pre = [])
    as [Hpre1 Hpre2]
    by (unfold pre; destruct (notNil (Limit f)); split; reflexivity).
  clearbody pre.
  exists (pre ++ (handled ≫= reported f) ++ post). split; [done|].
  destruct (limiter_calls_silent post Hpost) as (_ & Hrp & _).
  destruct (reported_recorded f handled) as [Hrr _].
  split.
  - by rewrite !omap_app, Hpre1, Hrr, Hrp, app_nil_r.
  - rewrite !List.filter_app, Hpre2, reported_about,
      (limiter_calls_about post Hpost), app_nil_r. simpl.
    clear. induction handled as [|r rs IH]; [done|].
    rewrite !bind_cons, IH. f_equal.
    unfold reported. by destruct (notNil (Overseer f)).
Qed.

(** A batch of two works under an overseer, both done. *)
Lemma every_record_is_handed_to_the_overseer_sample :
  ∃ evs,
    trace (consume overseen diligent false [work "a"; work "b"]
             {| store := []; failed := false; trace := [] |}).1
    = [] ++ evs
    ∧ omap recordedBy evs = [succeeded (work "a"); succeeded (work "b")]
    ∧ List.filter aboutRecord evs
      = [CallWorkDone (succeeded (work "a"));
         OnWorkSuccess (Some (work "a")) (Some okResult);
         CallWorkDone (succeeded (work "b"));
         OnWorkSuccess (Some (work "b")) (Some okResult)].
Proof.
  refine (every_record_is_handed_to_the_overseer overseen diligent
            [work "a"; work "b"] _ None
            {| store := []; failed := false; trace := [] |} eq_refl _).
  intros [H _]. discriminate H.
Defined.

(** ** Leaving the consumer loop *)

(** After a batch whose records were dispatched, [workErrorHappened] is set
    if it was set before or if one of the records, after the fallback,
    carries an error; it is never reset.  The consumer leaves its loop then
    exactly when the flag is set and [StopWhenWorkError] is on: also for a
    batch of its own that succeeded, if another consumer or an earlier batch
    set the flag. *)
Theorem stop_after_failure (f : Flow) (worker : Worker)
    (batch : list WorkInfo) (sh : Shared) :
  ¬ ((DoWork worker batch).1 = [] ∧ (DoWork worker batch).2 ≠ None) →
  let anyFailed :=
    existsb (λ r, notNil (rErr r))
            (fallback (DoWork worker batch).2 <$> (DoWork worker batch).1) in
  failed (consume f worker false batch sh).1 = anyFailed || failed sh
  ∧ (consume f worker false batch sh).2
    = if (anyFailed || failed sh) && StopWhenWorkError (fInfo f)
      then Some StoppedOnError else None.
Proof.
  intros Hp. pose proof (consume_shape f worker batch sh) as Hs.
  cbv zeta in *. rewrite (processed_batch _ _ Hp) in Hs.
  destruct Hs as (post & _ & _ & _ & _ & Hf & Hx).
  split; [done|]. by rewrite Hx, Hf.
Qed.

(** A clean batch worked after another batch failed, with
    [StopWhenWorkError] on. *)
Lemma stop_after_failure_sample :
  (consume hasty diligent false [work "b"]
     {| store := []; failed := true; trace := [] |}).2
  = Some StoppedOnError.
Proof.
  refine (proj2 (stop_after_failure hasty diligent [work "b"]
                   {| store := []; failed := true; trace := [] |} _)).
  intros [H _]. discriminate H.
Defined.

(** A batch that [DoWork] answers with no records and a batch error costs
    its [Acquire] and nothing else: the consumer leaves its loop and calls
    [wait.Done()], the batch is gone from the channel, and neither
    [Release] nor the overseer nor the listener is called, nor is
    [workErrorHappened] set. *)
Theorem failed_batch_keeps_its_permits (f : Flow) (l : AutoLimit)
    (st : State) (i : nat) (worker : Worker) (batch : list WorkInfo)
    (rest : list (list WorkInfo)) (e : CodeError) :
  producer st ≠ Panicked →
  consumers st !! i = Some (Ranging worker) →
  workChan st = batch :: rest →
  interrupt st = false →
  Limit f = Some l →
  DoWork worker batch = ([], Some e) →
  ∃ st',
    step f (Consume i) st = Some st'
    ∧ trace (shared st')
      = trace (shared st)
        ++ [CallAcquire (Z.of_nat (length batch)); CallDoWork batch]
    ∧ consumers st' = <[i := Exited BatchFailed]> (consumers st)
    ∧ wait st' = wait st - 1
    ∧ workChan st' = rest
    ∧ store (shared st') = store (shared st)
    ∧ failed (shared st') = failed (shared st).
Proof.
  intros Hp Hi Hc Hint Hl Hw. unfold step, stepConsume.
  rewrite Hi, Hc, Hint. unfold consume, settle. rewrite Hl, Hw. simpl.
  destruct (producer st); try done; eexists; (split; [reflexivity|]); simpl;
    by rewrite <- app_assoc.
Qed.

Lemma failed_batch_keeps_its_permits_sample :
  ∃ st',
    step leaky (Consume 0)
         (finalState leaky [Produce; Produce; Produce; Consume 0]) = Some st'
    ∧ trace (shared st')
      = trace (shared (finalState leaky [Produce; Produce; Produce; Consume 0]))
        ++ [CallAcquire 2; CallDoWork [work "a"; work "b"]]
    ∧ consumers st' = [Exited BatchFailed]
    ∧ wait st' = 0
    ∧ workChan st' = []
    ∧ store (shared st') = []
    ∧ failed (shared st') = false.
Proof.
  refine (failed_batch_keeps_its_permits leaky on573
            (finalState leaky [Produce; Produce; Produce; Consume 0])
            0%nat broken [work "a"; work "b"] [] boom _ eq_refl eq_refl
            eq_refl eq_refl eq_refl).
  vm_compute. discriminate.
Defined.

(** ** After the interrupt *)

(** A consumer that receives a batch while the interrupt flag is up drops
    it: the batch is gone from the channel, and the consumer leaves its loop
    and calls [wait.Done()] without calling the limiter, the worker, the
    overseer or the listener for it, so the works of the batch get no event
    and [workErrorHappened] is not touched.  The producer is left as it
    was. *)
Theorem interrupted_consumer_drops_its_batch (f : Flow) (st : State)
    (i : nat) (worker : Worker) (batch : list WorkInfo)
    (rest : list (list WorkInfo)) :
  producer st ≠ Panicked →
  consumers st !! i = Some (Ranging worker) →
  workChan st = batch :: rest →
  interrupt st = true →
  ∃ st',
    step f (Consume i) st = Some st'
    ∧ shared st' = shared st
    ∧ workChan st' = rest
    ∧ consumers st' = <[i := Exited Interrupted]> (consumers st)
    ∧ wait st' = wait st - 1
    ∧ producer st' = producer st
    ∧ provider st' = provider st
    ∧ workList st' = workList st.
Proof.
  intros Hp Hi Hc Hint. unfold step, stepConsume.
  rewrite Hi, Hc, Hint. simpl.
  destruct (producer st) eqn:Hprod; try done;
    eexists; (split; [reflexivity|]); simpl; by rewrite Hprod.
Qed.

(** The flag raised while the second batch of [hasty] was queued. *)
Lemma interrupted_consumer_drops_its_batch_sample :
  ∃ st',
    step hasty (Consume 0) interruptedState = Some st'
    ∧ shared st' = shared interruptedState
    ∧ workChan st' = []
    ∧ consumers st' = [Exited Interrupted]
    ∧ wait st' = 0
    ∧ producer st' = Producing
    ∧ provider st' = [offer (work "b"); offer (work "c")]
    ∧ workList st' = [].
Proof.
  refine (interrupted_consumer_drops_its_batch hasty interruptedState
            0%nat throttled [work "a"] [] _ eq_refl eq_refl eq_refl).
  vm_compute. discriminate.
Defined.

(** ** A producer left alone *)

(** If every consumer has returned or left its loop while the producer
    waits to send on a full channel, the producer waits for ever: under no
    schedule does it send, pull another answer from the provider, or close
    the channel. *)
Theorem producer_blocks_for_good (f : Flow) (st st' : State)
    (batch : list WorkInfo) (final : bool) (schedule : list Action) :
  Forall gone (consumers st) →
  producer st = Sending batch final →
  (capacity f ≤ length (workChan st))%nat →
  run f schedule st = Some st' →
  producer st' = Sending batch final
  ∧ workChan st' = workChan st
  ∧ provider st' = provider st
  ∧ consumers st' = consumers st
  ∧ ChanClose ∉ drop (length (trace (shared st))) (trace (shared st')).
Proof.
  intros Hg Hp Hfull Hr.
  apply (run_invariant f
           (λ s, producer s = Sending batch final
                 ∧ workChan s = workChan st
                 ∧ provider s = provider st
                 ∧ consumers s = consumers st
                 ∧ ∃ evs, trace (shared s) = trace (shared st) ++ evs
                          ∧ ChanClose ∉ evs))
    with (schedule := schedule) (st := st) in Hr.
  - destruct Hr as (? & ? & ? & ? & evs & -> & Hn).
    repeat split; try done. by rewrite drop_app_length.
  - clear st' Hr. intros a s s' (Hp' & Hc & Hpr & Hcs & evs & Htr & Hn) Hstep.
    destruct (step_trace f a s s' Hstep) as (evs' & Htr' & Hshape).
    apply step_alive in Hstep as [_ Hstep].
    destruct a as [|i| |].
    + exfalso. apply stepProduce_inv in Hstep
        as [(? & ? & Hx & _)|(? & ? & _ & Hroom & _)]; [congruence|].
      rewrite Hc in Hroom. lia.
    + exfalso. rewrite Forall_lookup in Hg.
      apply stepConsume_inv in Hstep
        as [(? & Hi & _)|[(? & ? & ? & Hi & _)|(? & Hi & _)]];
        rewrite Hcs in Hi; destruct (Hg _ _ Hi) as [?|[? ?]]; done.
    + destruct Hshape as (-> & _ & _ & _ & Hpr' & _ & Hp'' & Hc' & Hcs' & _).
      repeat split; try congruence.
      exists (evs ++ (if notNil (FlowWillEndFunc (EventListener f))
                      then [CallFlowWillEnd] else [])).
      rewrite Htr', Htr, <- app_assoc. split; [done|].
      intros [?|Hin]%elem_of_app; [done|].
      destruct (notNil _); [|by apply elem_of_nil in Hin].
      by apply list_elem_of_singleton in Hin.
    + destruct Hshape as (-> & _ & Hpr' & _ & Hp'' & Hc' & Hcs' & _).
      repeat split; try congruence.
      exists evs. by rewrite Htr', Htr, app_nil_r.
  - repeat split; try done. exists []. rewrite app_nil_r. split; [done|].
    by intros ?%elem_of_nil.
Qed.

Lemma producer_blocks_for_good_sample :
  let st := finalState hasty hastySchedule in
  let st' := finalState hasty (hastySchedule ++ [Interrupt]) in
  consumers st = [Exited StoppedOnError]
  ∧ producer st' = Sending [work "c"] false
  ∧ workChan st' = [[work "b"]]
  ∧ step hasty Produce st' = None.
Proof.
  split; [reflexivity|].
  pose proof (producer_blocks_for_good hasty
                (finalState hasty hastySchedule)
                (finalState hasty (hastySchedule ++ [Interrupt]))
                [work "c"] false [Interrupt]) as H.
  destruct H as (H1 & H2 & _); [| | |reflexivity|].
  - change (Forall gone [Exited StoppedOnError]).
    apply Forall_singleton. right. by eexists.
  - reflexivity.
  - vm_compute. lia.
  - split; [exact H1|]. split; [exact H2|]. reflexivity.
Defined.

(** ** The end of the producer loop *)

(** The producer leaves its loop on an answer of the provider exactly when
    that answer has no error, no work with a payload, and [hasMore] false.
    [hasMore] alone decides nothing: an answer with [hasMore = false] that
    carries a work or an error is handled like any other and the provider
    is asked again. *)
Theorem producer_ends_on_last_answer (f : Flow) (st : State) (p : Provided)
    (rest : list Provided) :
  producer st = Producing →
  provider st = p :: rest →
  ∃ st',
    step f Produce st = Some st'
    ∧ provider st' = rest
    ∧ workChan st' = workChan st
    ∧ (closing (producer st') ↔ lastAnswer p).
Proof.
  intros Hp Hs. unfold step, stepProduce. rewrite Hp, Hs.
  destruct (produce f p (workList st) (store (shared st)))
    as [[evs wl] status] eqn:Hpr.
  eexists. split; [reflexivity|]. simpl. split; [done|]. split; [done|].
  revert Hpr. unfold produce, flush, lastAnswer, closing.
  destruct (err p) as [e|].
  { destruct (Code e =? _); intros [= <- <- <-]; split.
    all: try (intros [?|[? ?]]; done). all: intros (? & _); done. }
  destruct (workInfo p ≫= _) as [w|].
  - destruct (admission f _ w) as [evs' []];
      [destruct (_ <=? _)| |]; intros [= <- <- <-]; split.
    all: try (intros [?|[? ?]]; done). all: intros (_ & ? & _); done.
  - destruct (hasMore p); simpl.
    + intros [= <- <- <-]. split; [intros [?|[? ?]]; done|].
      intros (_ & _ & ?). done.
    + destruct (0 <? length (workList st))%nat; intros [= <- <- <-];
        (split; [done|]); intros _; [right; by eexists|by left].
Qed.

Lemma producer_ends_on_last_answer_sample :
  ∃ st',
    step faultyFlow Produce
         (finalState faultyFlow [Produce]) = Some st'
    ∧ provider st' = [offer (work "c")]
    ∧ workChan st' = []
    ∧ (closing (producer st')
       ↔ lastAnswer {| hasMore := false; workInfo := Some (work "b");
                       err := Some boom |}).
Proof.
  exact (producer_ends_on_last_answer faultyFlow
           (finalState faultyFlow [Produce]) _ _ eq_refl eq_refl).
Defined.

(** ** The redo policy *)

(** With an overseer and a redo policy, a work reported as done is handed
    to [Redo.ShouldRedo] with its prior record.  If the policy says no, the
    work is skipped with the prior result and the policy's cause, whose code
    is overwritten with [ErrorCodeAlreadyDone] (a nil cause becomes "already
    done"), and neither the listener's [WillWork] is asked nor the buffer
    touched.  If the policy says yes, the work goes on to [WillWork] like a
    work never seen before. *)
Theorem redo_policy_decides (f : Flow) (o : OverseerT) (rd : RedoT)
    (store : list WorkRecord) (w : WorkInfo) (prior : WorkRecord)
    (redo : bool) (cause : option CodeError) :
  Overseer f = Some o →
  Redo f = Some rd →
  (skipperStage f w).2 = Accept →
  GetWorkRecordIfHasDone o store w = (true, Some prior) →
  ShouldRedo rd w (Some prior) = (redo, cause) →
  let asked := (skipperStage f w).1
               ++ [CallGetWorkRecordIfHasDone w;
                   CallShouldRedo w (Some prior)] in
  admission f store w
  = if redo
    then (asked ++ (listenerStage f w).1, (listenerStage f w).2)
    else (asked
          ++ [OnWorkSkip (Some w) (rResult prior)
                (Some (NewError ErrorCodeAlreadyDone
                         (from_option Desc "already done" cause)))],
          Reject).
Proof.
  intros Ho Hr Hs Hg Hd. unfold admission.
  rewrite andThen_accept by done.
  unfold overseerStage. rewrite Ho, Hg, Hr, Hd.
  destruct redo; simpl.
  - by rewrite <- app_assoc.
  - rewrite <- app_assoc. by destruct cause.
Qed.

Lemma redo_policy_decides_sample :
  admission stubborn [failedBefore (work "a")] (work "a")
  = ([CallGetWorkRecordIfHasDone (work "a");
      CallShouldRedo (work "a") (Some (failedBefore (work "a")));
      OnWorkSkip (Some (work "a")) None
                 (Some (NewError ErrorCodeAlreadyDone "limit exceeded"))],
     Reject).
Proof.
  exact (redo_policy_decides stubborn _ _ [failedBefore (work "a")]
           (work "a") (failedBefore (work "a")) false (Some boom)
           eq_refl eq_refl eq_refl eq_refl eq_refl).
Defined.

(** ** [SyncInfo.Check] *)

(** [SyncInfo.Check] returns nil exactly when the source path is not empty
    and is a network source, the bucket is not empty, and a key is given
    whenever overwriting is asked for; an empty path is reported before the
    network-source test is made, and the key is not looked at unless
    [Overwrite] is set. *)
Theorem SyncInfo_Check_accepts (IsNetworkSource : string → bool)
    (info : SyncInfo) :
  (SyncInfo_Check IsNetworkSource info = None
   ↔ FilePath info ≠ EmptyString
     ∧ IsNetworkSource (FilePath info) = true
     ∧ ToBucket info ≠ EmptyString
     ∧ (Overwrite info = true → SaveKey info ≠ EmptyString))
  ∧ (FilePath info = EmptyString →
     SyncInfo_Check IsNetworkSource info
     = Some (CannotEmptyError "SrcResUrl"))
  ∧ (Overwrite info = false →
     SyncInfo_Check IsNetworkSource info
     = SyncInfo_Check IsNetworkSource
         {| FilePath := FilePath info; ToBucket := ToBucket info;
            SaveKey := EmptyString; Overwrite := false |}).
Proof.
  assert (∀ s, (String.length s =? 0)%nat = true ↔ s = EmptyString) as Hlen.
  { intros [|a s]; simpl; split; done. }
  unfold SyncInfo_Check. split; [|split].
  - destruct (String.length (FilePath info) =? 0)%nat eqn:H1.
    { apply Hlen in H1. split; [done|]. intros (? & _). done. }
    destruct (IsNetworkSource (FilePath info)) eqn:H2; simpl.
    2: { split; [done|]. intros (_ & ? & _). done. }
    destruct (String.length (ToBucket info) =? 0)%nat eqn:H3.
    { apply Hlen in H3. split; [done|]. intros (_ & _ & ? & _). done. }
    assert (FilePath info ≠ EmptyString) as N1
      by (intros E; apply Hlen in E; congruence).
    assert (ToBucket info ≠ EmptyString) as N3
      by (intros E; apply Hlen in E; congruence).
    destruct (Overwrite info); simpl.
    + destruct (String.length (SaveKey info) =? 0)%nat eqn:H4.
      * apply Hlen in H4. split; [done|]. intros (_ & _ & _ & H). by destruct H.
      * split; [|done]. intros _. repeat split; try done.
        intros _ E. apply Hlen in E. congruence.
    + split; [|done]. intros _. repeat split; done.
  - intros ->. done.
  - intros ->. done.
Qed.

(** ** [Start] can return *)

Lemma weight_insert (cs : list ConsumerStatus) i c c' :
  cs !! i = Some c →
  (sum_list (consumerWeight <$> <[i:=c']> cs) + consumerWeight c
   = sum_list (consumerWeight <$> cs) + consumerWeight c')%nat.
Proof.
  revert i. induction cs as [|x cs IH]; intros [|i]; csimpl; try done.
  - intros [= ->]. lia.
  - intros Hl. specialize (IH _ Hl). lia.
Qed.

(** Some consumer can still move, or all of them are gone. *)
Lemma crew_cases (cs : list ConsumerStatus) :
  (∃ i, cs !! i = Some Spawned)
  ∨ (∃ i worker, cs !! i = Some (Ranging worker))
  ∨ Forall gone cs.
Proof.
  induction cs as [|c cs [[i Hi]|[(i & w & Hi)|Hg]]].
  - right. right. constructor.
  - left. by exists (S i).
  - right. left. by exists (S i), w.
  - destruct c as [|w| |why].
    + left. by exists 0%nat.
    + right. left. by exists 0%nat, w.
    + right. right. constructor; [by left|done].
    + right. right. constructor; [right; by eexists|done].
Qed.

Lemma produce_never_faults (f : Flow) p workList store :
  neverFaults f → (produce f p workList store).2 ≠ Panicked.
Proof.
  intros Hn. unfold produce, flush.
  destruct (err p) as [e|]; [by destruct (Code e =? _)|].
  destruct (workInfo p ≫= _) as [w|].
  - destruct (admission f store w) as [evs v] eqn:Ha.
    destruct v; [by destruct (_ <=? _)|done|].
    exfalso. revert Ha. unfold admission, andThen, skipperStage, listenerStage.
    specialize (Hn store w).
    destruct (overseerStage f store w) as [evs' []]; [| |done];
      repeat case_match; simplify_eq; done.
  - destruct (negb (hasMore p)); [|done].
    by destruct (0 <? length workList)%nat.
Qed.

Lemma Alive_step (f : Flow) provide (a : Action) (st st' : State) :
  WorkerProvider f = Some provide →
  (∀ i, ∃ worker, provide i = inl worker) →
  neverFaults f →
  Alive st → step f a st = Some st' → Alive st'.
Proof.
  intros Hwp Hall Hn [Hc Hp Hcs] Hstep.
  pose proof (Counted_step f a st st' Hc Hstep) as Hc'.
  destruct (step_trace f a st st' Hstep) as (evs & _ & Hshape).
  apply step_alive in Hstep as [_ Hstep].
  destruct a as [|i| |].
  - destruct Hshape as (_ & Hcs' & _).
    split; [done| |by rewrite Hcs'].
    apply stepProduce_inv in Hstep
      as [(p & rest & _ & _ & ->)|(batch & final & _ & _ & ->)]; simpl.
    + by apply produce_never_faults.
    + by destruct final.
  - destruct Hshape as (_ & _ & _ & Hp' & _).
    split; [done|congruence|].
    apply stepConsume_inv in Hstep
      as [(provide' & _ & Hwp' & ->)|[(worker & batch & rest & _ & _ & ->)
                                     |(? & _ & _ & _ & ->)]]; simpl.
    + assert (provide' = provide) as -> by congruence.
      apply Forall_insert; [done|]. by destruct (Hall i) as [w ->].
    + destruct (consume _ _ _ _ _).2; simpl; [|done].
      by apply Forall_insert.
    + by apply Forall_insert.
  - destruct Hshape as (_ & _ & _ & _ & _ & _ & Hp' & _ & Hcs' & _).
    split; [done|congruence|by rewrite Hcs'].
  - destruct Hshape as (_ & _ & _ & _ & Hp' & _ & Hcs' & _).
    split; [done|congruence|by rewrite Hcs'].
Qed.

Lemma spawn_step (f : Flow) provide (st : State) i :
  WorkerProvider f = Some provide →
  (∀ i, ∃ worker, provide i = inl worker) →
  producer st ≠ Panicked →
  consumers st !! i = Some Spawned →
  ∃ st1,
    step f (Consume i) st = Some st1
    ∧ producerWork st1 = producerWork st
    ∧ (consumerWork st1 < consumerWork st)%nat
    ∧ main st1 = main st.
Proof.
  intros Hwp Hall Hp Hi. destruct (Hall i) as [worker Hw].
  exists (setConsumer i (Ranging worker) false st). split.
  - unfold step, stepConsume. rewrite Hi, Hwp, Hw. by destruct (producer st).
  - split; [done|]. split; [|done]. unfold consumerWork. simpl.
    pose proof (weight_insert _ _ _ (Ranging worker) Hi) as H. simpl in H.
    lia.
Qed.

Lemma receive_step (f : Flow) (st : State) i worker :
  producer st ≠ Panicked →
  consumers st !! i = Some (Ranging worker) →
  workChan st ≠ [] ∨ producer st = Finished →
  ∃ st1,
    step f (Consume i) st = Some st1
    ∧ producerWork st1 = producerWork st
    ∧ (consumerWork st1 < consumerWork st)%nat
    ∧ main st1 = main st.
Proof.
  intros Hp Hi Hc.
  assert (∀ why, (sum_list (consumerWeight <$> <[i:=Exited why]> (consumers st))
                  < sum_list (consumerWeight <$> consumers st))%nat) as Hex.
  { intros why. pose proof (weight_insert _ _ _ (Exited why) Hi) as H.
    cbn [consumerWeight] in H. lia. }
  assert (∃ st1, stepConsume f i st = Some st1
                 ∧ producerWork st1 = producerWork st
                 ∧ (consumerWork st1 < consumerWork st)%nat
                 ∧ main st1 = main st) as (st1 & Hs & Hrest).
  { unfold stepConsume. rewrite Hi.
    destruct (workChan st) as [|batch rest] eqn:Hch.
    - destruct Hc as [?|Hf]; [done|]. rewrite Hf.
      eexists. split; [reflexivity|].
      unfold producerWork, consumerWork.
      cbn [setConsumer producer provider workChan consumers main].
      rewrite Hch. split; [done|]. split; [|done].
      specialize (Hex ChannelDrained). cbn [length]. lia.
    - destruct (consume f worker (interrupt st) batch (shared st))
        as [sh [why|]]; (eexists; split; [reflexivity|]);
        unfold producerWork, consumerWork;
        cbn [setConsumer receive producer provider workChan consumers main];
        rewrite ?Hch; (split; [done|]); (split; [|done]); cbn [length].
      + specialize (Hex why). lia.
      + lia. }
  exists st1. split; [|done]. unfold step. by destruct (producer st).
Qed.

Lemma produce_step (f : Flow) (st : State) :
  neverFaults f →
  producer st = Producing
  ∨ (∃ batch final, producer st = Sending batch final
                    ∧ (length (workChan st) < capacity f)%nat) →
  ∃ st1,
    step f Produce st = Some st1
    ∧ (producerWork st1 < producerWork st)%nat
    ∧ main st1 = main st.
Proof.
  intros Hn [Hp|(batch & final & Hp & Hroom)]; unfold step, stepProduce;
    rewrite Hp.
  - assert (∃ p rest,
               match provider st with
               | [] => (exhausted, [])
               | p :: rest => (p, rest)
               end = (p, rest)
               ∧ (3 * length rest + 4 < 3 * length (provider st) + 3
                  ∨ produce f p (workList st) (store (shared st))
                    = flush (workList st))%nat)
      as (p & rest & -> & Hmeasure).
    { destruct (provider st) as [|p rest]; eexists _, _; (split; [done|]).
      - by right.
      - left. simpl. lia. }
    pose proof (produce_never_faults f p (workList st) (store (shared st)) Hn)
      as Hnf.
    destruct (produce f p (workList st) (store (shared st)))
      as [[evs wl] status] eqn:Hpr.
    eexists. split; [reflexivity|]. split; [|done].
    unfold producerWork. simpl. rewrite Hp.
    destruct Hmeasure as [Hlt|Hfl].
    + destruct status as [|b [|]| |]; try done; lia.
    + unfold flush in Hfl.
      destruct (0 <? length (workList st))%nat; simplify_eq; lia.
  - destruct (Nat.ltb_spec (length (workChan st)) (capacity f)); [|lia].
    eexists. split; [reflexivity|]. split; [|done].
    unfold producerWork. simpl. rewrite Hp. destruct final; lia.
Qed.

Lemma wait_step (f : Flow) (st : State) :
  Alive st → main st = Waiting → Forall gone (consumers st) →
  ∃ st1, step f Wait st = Some st1 ∧ main st1 = Ended.
Proof.
  intros [[Hc] Hp Hcs] Hm Hg.
  assert (wait st = 0) as Hw.
  { rewrite Hc.
    assert (List.filter blocking (consumers st) = []) as ->; [|done].
    clear -Hcs Hg. revert Hcs Hg. generalize (consumers st).
    intros cs Hcs Hg.
    induction Hg as [|c cs [->|[why ->]] _ IH];
      [done|apply Forall_cons in Hcs as [? ?]..]; simpl; auto; done. }
  unfold step, stepWait. rewrite Hm, Hw.
  destruct (producer st); try done; eexists; split; reflexivity || done.
Qed.

Lemma Start_can_return_from (f : Flow) provide :
  WorkerProvider f = Some provide →
  (∀ i, ∃ worker, provide i = inl worker) →
  neverFaults f →
  (1 ≤ capacity f)%nat →
  ∀ n m st,
    producerWork st = n → consumerWork st = m →
    Alive st → main st = Waiting →
    ∃ schedule st', run f schedule st = Some st' ∧ main st' = Ended.
Proof.
  intros Hwp Hall Hn Hcap n.
  induction n as [n IHn] using lt_wf_ind. intros m.
  induction m as [m IHm] using lt_wf_ind.
  intros st Hpw Hcw Ha Hm.
  assert (∀ a st1,
             step f a st = Some st1 → main st1 = main st →
             (producerWork st1 < n
              ∨ producerWork st1 = n ∧ consumerWork st1 < m)%nat →
             ∃ schedule st', run f schedule st = Some st' ∧ main st' = Ended)
    as Hgo.
  { intros a st1 Hstep Hm1 Hless.
    assert (Alive st1) as Ha1 by (by eapply Alive_step).
    assert (∃ schedule st', run f schedule st1 = Some st' ∧ main st' = Ended)
      as (schedule & st' & Hr & He).
    { destruct Hless as [Hlt|[Heq Hlt]].
      - eapply (IHn _ Hlt); [reflexivity|reflexivity|done|congruence].
      - eapply (IHm _ Hlt); [done|reflexivity|done|congruence]. }
    exists (a :: schedule), st'. simpl. rewrite Hstep. done. }
  pose proof (alive_producer _ Ha) as Hp.
  destruct (crew_cases (consumers st)) as [[i Hi]|Hrest].
  { destruct (spawn_step f provide st i Hwp Hall Hp Hi)
      as (st1 & Hstep & Hpw1 & Hcw1 & Hm1).
    apply (Hgo _ _ Hstep Hm1). right. lia. }
  assert (producer st = Producing
          ∨ (∃ batch final, producer st = Sending batch final
                            ∧ (length (workChan st) < capacity f)%nat)
          ∨ (workChan st ≠ [] ∨ producer st = Finished)) as [Hprod|[Hprod|Hcons]].
  { destruct (producer st) as [|batch final| |] eqn:Hprod; [by left| |auto|done].
    destruct (Nat.lt_ge_cases (length (workChan st)) (capacity f)).
    - right. left. by exists batch, final.
    - right. right. left. destruct (workChan st); simpl in *; [lia|done]. }
  - destruct (produce_step f st Hn (or_introl Hprod)) as (st1 & Hstep & Hlt & Hm1).
    apply (Hgo _ _ Hstep Hm1). left. lia.
  - destruct (produce_step f st Hn (or_intror Hprod))
      as (st1 & Hstep & Hlt & Hm1).
    apply (Hgo _ _ Hstep Hm1). left. lia.
  - destruct Hrest as [(i & worker & Hi)|Hg].
    + destruct (receive_step f st i worker Hp Hi Hcons)
        as (st1 & Hstep & Hpw1 & Hcw1 & Hm1).
      apply (Hgo _ _ Hstep Hm1). right. lia.
    + destruct (wait_step f st Ha Hm Hg) as (st1 & Hstep & He).
      exists [Wait], st1. simpl. by rewrite Hstep.
Qed.

Lemma neverFaults_checked (f f' : Flow) :
  Flow_Check f = (f', None) → neverFaults f → neverFaults f'.
Proof.
  intros (_ & _ & _ & _ & _ & _ & _ & _ & Ho & _ & Hr)%Flow_Check_ok Hn store w.
  specialize (Hn store w). unfold overseerStage in *. by rewrite Ho, Hr.
Qed.

Lemma Alive_launch (f : Flow) : 0 ≤ WorkerCount (fInfo f) → Alive (launch f).
Proof.
  intros Hw. split.
  - by apply Counted_launch.
  - done.
  - simpl. apply Forall_replicate. done.
Qed.

Lemma namesRecord_neverFaults (f : Flow) : namesRecord f → neverFaults f.
Proof.
  intros Hn store w. unfold overseerStage.
  destruct (Overseer f) as [o|] eqn:Ho; [|done].
  specialize (Hn o store w Ho).
  destruct (GetWorkRecordIfHasDone o store w) as [[|] [r|]]; try done;
    repeat case_match; done.
Qed.

(** Without a limiter, if every consumer's worker can be built and the
    overseer, if any, names a record whenever it reports a work as done,
    [Flow.Start] is never stuck as long as the calls on its collaborators
    return and the provider's answers come to an end: from every state it
    can reach there is a schedule of the goroutines under which the caller
    gets past [wait.Wait()] and [Start] returns.  (A failing worker
    construction is what takes this away.) *)
Theorem Start_can_return (f f' : Flow) (verified : bool) (st : State)
    (provide : WorkerProviderT) :
  Reaches f verified f' st →
  Limit f = None →
  WorkerProvider f = Some provide →
  (∀ i, ∃ worker, provide i = inl worker) →
  namesRecord f →
  ∃ schedule st', run f' schedule st = Some st' ∧ main st' = Ended.
Proof.
  intros Hr _ Hwp Hall Hn%namesRecord_neverFaults.
  assert (Flow_Check f = (f', None)) as Hc.
  { destruct Hr as (? & Hs & _). by apply Start_Launched in Hs as [? _]. }
  pose proof (neverFaults_checked f f' Hc Hn) as Hn'.
  apply Flow_Check_ok in Hc as (Hw & _ & _ & Hwp' & _).
  rewrite <- Hwp' in Hwp.
  assert (Alive st) as Ha.
  { eapply (Reaches_invariant f f'); [| |exact Hr].
    - intros _. apply Alive_launch. lia.
    - intros _ a s s'. by eapply Alive_step. }
  destruct (main st) eqn:Hm; [|by exists [], st].
  eapply (Start_can_return_from f' provide Hwp Hall Hn'); try done.
  unfold capacity. lia.
Qed.

(** A flow resumed over a work recorded as a success, after the producer
    has skipped that work. *)
Lemma Start_can_return_sample :
  ∃ schedule st',
    run (resumed [succeeded (work "a")]) schedule
        (finalState (resumed [succeeded (work "a")]) [Produce; Consume 0])
    = Some st'
    ∧ main st' = Ended.
Proof.
  refine (Start_can_return (resumed [succeeded (work "a")])
            (resumed [succeeded (work "a")]) true
            (finalState (resumed [succeeded (work "a")]) [Produce; Consume 0])
            (λ _, inl diligent) _ eq_refl eq_refl _ _).
  - exists [Produce; Consume 0]. split; reflexivity.
  - intros i. by eexists.
  - intros o store w [= <-]. simpl. unfold byData.
    by destruct (filter _ store).
Defined.
